(** * swfsm/activity: interceptors and the coordinated activity adapter

    A shallow embedding of [activity/interceptors.go] and of the coordinated
    activity adapter that follows it in the same source file
    ([heartbeat] and [coordinate]), together with the properties of the
    natural-language specification that concern them.

    Go constructs are rendered as follows.
    - [interface{}] values and [error] values are nil-able: [option].
    - A nil-able func field is an [option] of a state transformer; calling
      a nil func value panics.
    - The two goroutines of a session (the adapter running [coordinate] and
      the monitor running [heartbeat]) are two program counters in one
      [state]; a schedule (a list of [action]s) resolves every choice the Go
      runtime makes: which goroutine runs, which ready [select] case is
      taken, when a ticker fires and how much time passes.
    - [make(chan error)] is an unbuffered channel: a send completes only in
      a rendezvous with a receive executed by another goroutine.
    - [time.Ticker] is a clock with a one-slot channel buffer. *)

From Stdlib Require Import ZArith List String Bool Lia.
Import ListNotations.
Open Scope string_scope.
Open Scope list_scope.
Open Scope Z_scope.

(* ------------------------------------------------------------------ *)
(** ** FuncInterceptor (interceptors.go, lines 15-49) *)

Module Interceptor.

Section Hooks.
(** [World] is whatever a hook may touch; [Task] stands for
    [*swf.PollForActivityTaskOutput], [Result] for [interface{}] and
    [Err] for [error]. *)
Variables World Task Result Err : Type.

(** Outcome of running a piece of Go code from world [w]. *)
Inductive run_result :=
| Returned (w : World)
| Panicked.

(** Calling a func value: a nil func value panics, otherwise the body
    runs once on the arguments. *)
Definition call {A : Type} (fn : option (A -> World -> World)) (a : A)
  (w : World) : run_result :=
  match fn with
  | Some f => Returned (f a w)
  | None => Panicked
  end.

Record FuncInterceptor := {
  BeforeTaskFn : option (Task -> World -> World);
  AfterTaskCompleteFn : option (Task * Result -> World -> World);
  AfterTaskFailedFn : option (Task * Err -> World -> World);
  AfterTaskCanceledFn : option (Task * string -> World -> World)
}.

Definition is_nil {A : Type} (fn : option A) : bool :=
  match fn with Some _ => false | None => true end.

(** if i.BeforeTaskFn != nil { i.BeforeTaskFn(activity) } *)
Definition BeforeTask (i : FuncInterceptor) (activity : Task) (w : World)
  : run_result :=
  if negb (is_nil (BeforeTaskFn i)) then call (BeforeTaskFn i) activity w
  else Returned w.

Definition AfterTaskComplete (i : FuncInterceptor) (activity : Task)
  (result : Result) (w : World) : run_result :=
  if negb (is_nil (AfterTaskCompleteFn i))
  then call (AfterTaskCompleteFn i) (activity, result) w
  else Returned w.

Definition AfterTaskFailed (i : FuncInterceptor) (activity : Task)
  (err : Err) (w : World) : run_result :=
  if negb (is_nil (AfterTaskFailedFn i))
  then call (AfterTaskFailedFn i) (activity, err) w
  else Returned w.

Definition AfterTaskCanceled (i : FuncInterceptor) (activity : Task)
  (details : string) (w : World) : run_result :=
  if negb (is_nil (AfterTaskCanceledFn i))
  then call (AfterTaskCanceledFn i) (activity, details) w
  else Returned w.
End Hooks.

Arguments Returned {World} w.
Arguments Panicked {World}.
Arguments BeforeTaskFn {World Task Result Err} _.
Arguments AfterTaskCompleteFn {World Task Result Err} _.
Arguments AfterTaskFailedFn {World Task Result Err} _.
Arguments AfterTaskCanceledFn {World Task Result Err} _.
Arguments BeforeTask {World Task Result Err} i activity w.
Arguments AfterTaskComplete {World Task Result Err} i activity result w.
Arguments AfterTaskFailed {World Task Result Err} i activity err w.
Arguments AfterTaskCanceled {World Task Result Err} i activity details w.

End Interceptor.

(* ------------------------------------------------------------------ *)
(** ** The coordinated activity adapter (lines 63-165) *)

Module Coordinated.

(** const TaskGone *)
Definition TaskGone : string := "Unknown activity".

(** strings.Contains *)
Fixpoint Contains (s substr : string) : bool :=
  String.prefix substr s ||
  match s with
  | EmptyString => false
  | String _ s' => Contains s' substr
  end.

(** Payloads are opaque to the adapter; an [interface{}] is a nil-able
    payload. *)
Definition Payload : Type := string.
Definition iface : Type := option Payload.

(** The [error] values the adapter can meet.  [ActivityTaskCanceledError]
    is the zero value [ActivityTaskCanceledError{}] that [heartbeat] sends
    (the type is declared elsewhere in the package; it is the
    specification's cancellation marker); [AwsError] is an [awserr.Error]
    with its [Code()] and [Message()]; [OtherError] is any error that is
    not an [awserr.Error]. *)
Inductive error :=
| ActivityTaskCanceledError
| AwsError (code message : string)
| OtherError (msg : string).

(** [swf.RecordActivityTaskHeartbeatOutput]: [CancelRequested] is a
    [*bool]. *)
Record RecordActivityTaskHeartbeatOutput := {
  CancelRequested : option bool
}.

(** Everything outside the adapter, for one session (one task, one input).
    The handler and the service may be stateful: what a call returns is a
    function of how many calls of that kind came before.
    [ErrorTypeUnknownResourceFault] is a constant of the [sugar] package,
    taken as a parameter. *)
Record env := {
  heartbeatInterval : Z;
  tickMinInterval : Z;
  ErrorTypeUnknownResourceFault : string;
  handler_Start : iface * option error;
  handler_Tick : nat -> bool * iface * option error;
  handler_Cancel : option error;
  signalStart : iface -> option error;
  signalUpdate : nat -> iface -> option error;
  RecordActivityTaskHeartbeat :
    nat -> RecordActivityTaskHeartbeatOutput * option error
}.

(** The test of line 106:
    [ae, ok := err.(awserr.Error); ok && ae.Code() ==
     ErrorTypeUnknownResourceFault && strings.Contains(ae.Message(), TaskGone)] *)
Definition is_task_gone (E : env) (err : error) : bool :=
  match err with
  | AwsError code message =>
      String.eqb code (ErrorTypeUnknownResourceFault E)
      && Contains message TaskGone
  | _ => false
  end.

(** *** time.Ticker *)

Record ticker := {
  period : Z;
  next_fire : Z;
  pending : bool;   (* the one-slot buffer of the channel C holds a tick *)
  running : bool
}.

(** [time.NewTicker d] panics when [d <= 0]. *)
Definition NewTicker (now d : Z) : option ticker :=
  if d <=? 0 then None
  else Some {| period := d; next_fire := now + d;
               pending := false; running := true |}.

Definition Stop (t : ticker) : ticker :=
  {| period := period t; next_fire := next_fire t;
     pending := pending t; running := false |}.

(** The runtime sends on C without blocking: a tick that finds the buffer
    full is dropped. *)
Definition fire (t : ticker) : ticker :=
  {| period := period t; next_fire := next_fire t + period t;
     pending := true; running := running t |}.

Definition take (t : ticker) : ticker :=
  {| period := period t; next_fire := next_fire t;
     pending := false; running := running t |}.

Definition due (now : Z) (t : option ticker) : bool :=
  match t with
  | Some t => running t && (next_fire t <=? now)
  | None => false
  end.

Definition has_tick (t : option ticker) : bool :=
  match t with Some t => pending t | None => false end.

(** Time may advance to [now'] only if no running ticker is overdue
    then. *)
Definition not_overdue (now' : Z) (t : option ticker) : bool :=
  match t with
  | Some t => negb (running t) || (now' <=? next_fire t)
  | None => true
  end.

(** *** Program counters, events, state *)

Inductive goroutine := Adapter | Monitor.

Inductive panic :=
| NonPositiveInterval      (* time.NewTicker with d <= 0 *)
| NilDereference.          (* *status.CancelRequested with a nil pointer *)

Inductive coord_pc :=
| CInit                              (* line 127, not yet entered *)
| CSelect                            (* blocked in the select of line 144 *)
| CTicking (n : nat)                 (* inside the n-th c.handler.Tick, line 151 *)
| CSendCancel (e : error)            (* blocked in [cancel <- err], line 159 *)
| CReturned (res : iface) (err : option error)
| CPanicked (p : panic).

Inductive mon_pc :=
| MNotStarted
| MSpawned                           (* go c.heartbeat(...), before line 98 *)
| MSelect                            (* blocked in the select of line 101 *)
| MSend (cause : option error)       (* blocked in [cancelActivity <- ...] *)
| MReturned
| MPanicked (p : panic).

Inductive log_tag :=
| at_activity_gone | at_heartbeat_error | at_heartbeat_recorded
| at_activity_cancel_requested | at_activity_cancel_err
| at_signal_update_error | at_signal_update.

Inductive event :=
| EvStart                                   (* c.handler.Start called *)
| EvSignalStart (update : iface)            (* c.worker.signalStart called *)
| EvGoHeartbeat                             (* go c.heartbeat(...) *)
| EvTick (n : nat) (at_time : Z)            (* c.handler.Tick called *)
| EvSignalUpdate (res : iface)              (* c.worker.signalUpdate called *)
| EvHandlerCancel                           (* c.handler.Cancel called *)
| EvHeartbeat (k : nat)                     (* RecordActivityTaskHeartbeat called *)
| EvSend (g : goroutine) (v : option error) (* g starts a send on cancel *)
| EvRecv (v : option error)                 (* the adapter receives from cancel *)
| EvCloseStop                               (* close(stopHeartbeating) *)
| EvReturn (res : iface) (err : option error)   (* coordinate returns *)
| EvMonitorReturn                           (* heartbeat returns *)
| EvPanic (g : goroutine) (p : panic)
| EvLog (tag : log_tag).

Record state := {
  coord : coord_pc;
  mon : mon_pc;
  stop_closed : bool;            (* stopHeartbeating has been closed *)
  now : Z;
  ticks : option ticker;         (* line 141 *)
  heartbeats : option ticker;    (* line 98 *)
  n_tick : nat;                  (* calls of Tick so far *)
  n_update : nat;                (* calls of signalUpdate so far *)
  n_beat : nat;                  (* calls of RecordActivityTaskHeartbeat so far *)
  trace : list event             (* oldest first *)
}.

Definition init : state :=
  {| coord := CInit; mon := MNotStarted; stop_closed := false; now := 0;
     ticks := None; heartbeats := None;
     n_tick := 0; n_update := 0; n_beat := 0; trace := [] |}.

Definition set_coord (c : coord_pc) (s : state) : state :=
  {| coord := c; mon := mon s; stop_closed := stop_closed s; now := now s;
     ticks := ticks s; heartbeats := heartbeats s; n_tick := n_tick s;
     n_update := n_update s; n_beat := n_beat s; trace := trace s |}.

Definition set_mon (m : mon_pc) (s : state) : state :=
  {| coord := coord s; mon := m; stop_closed := stop_closed s; now := now s;
     ticks := ticks s; heartbeats := heartbeats s; n_tick := n_tick s;
     n_update := n_update s; n_beat := n_beat s; trace := trace s |}.

Definition set_stop_closed (b : bool) (s : state) : state :=
  {| coord := coord s; mon := mon s; stop_closed := b; now := now s;
     ticks := ticks s; heartbeats := heartbeats s; n_tick := n_tick s;
     n_update := n_update s; n_beat := n_beat s; trace := trace s |}.

Definition set_now (t : Z) (s : state) : state :=
  {| coord := coord s; mon := mon s; stop_closed := stop_closed s; now := t;
     ticks := ticks s; heartbeats := heartbeats s; n_tick := n_tick s;
     n_update := n_update s; n_beat := n_beat s; trace := trace s |}.

Definition set_ticks (t : option ticker) (s : state) : state :=
  {| coord := coord s; mon := mon s; stop_closed := stop_closed s;
     now := now s; ticks := t; heartbeats := heartbeats s;
     n_tick := n_tick s; n_update := n_update s; n_beat := n_beat s;
     trace := trace s |}.

Definition set_heartbeats (t : option ticker) (s : state) : state :=
  {| coord := coord s; mon := mon s; stop_closed := stop_closed s;
     now := now s; ticks := ticks s; heartbeats := t;
     n_tick := n_tick s; n_update := n_update s; n_beat := n_beat s;
     trace := trace s |}.

Definition incr_tick (s : state) : state :=
  {| coord := coord s; mon := mon s; stop_closed := stop_closed s;
     now := now s; ticks := ticks s; heartbeats := heartbeats s;
     n_tick := S (n_tick s); n_update := n_update s; n_beat := n_beat s;
     trace := trace s |}.

Definition incr_update (s : state) : state :=
  {| coord := coord s; mon := mon s; stop_closed := stop_closed s;
     now := now s; ticks := ticks s; heartbeats := heartbeats s;
     n_tick := n_tick s; n_update := S (n_update s); n_beat := n_beat s;
     trace := trace s |}.

Definition incr_beat (s : state) : state :=
  {| coord := coord s; mon := mon s; stop_closed := stop_closed s;
     now := now s; ticks := ticks s; heartbeats := heartbeats s;
     n_tick := n_tick s; n_update := n_update s; n_beat := S (n_beat s);
     trace := trace s |}.

Definition emit (ev : event) (s : state) : state :=
  {| coord := coord s; mon := mon s; stop_closed := stop_closed s;
     now := now s; ticks := ticks s; heartbeats := heartbeats s;
     n_tick := n_tick s; n_update := n_update s; n_beat := n_beat s;
     trace := trace s ++ [ev] |}.

(** *** coordinate *)

(** Leaving [coordinate] once the defers of lines 139 and 142 are
    registered: [ticks.Stop()], then [close(stopHeartbeating)], then the
    values go back to the caller. *)
Definition coordinate_return (res : iface) (err : option error) (s : state)
  : state :=
  let s := set_ticks (option_map Stop (ticks s)) s in
  let s := emit EvCloseStop (set_stop_closed true s) in
  set_coord (CReturned res err) (emit (EvReturn res err) s).

(** Lines 127-142. *)
Definition coordinate_begin (E : env) (s : state) : state :=
  let '(update, err) := handler_Start E in
  let s := emit EvStart s in
  match err with
  | Some e => set_coord (CReturned None (Some e)) (emit (EvReturn None (Some e)) s)
  | None =>
      let s := emit (EvSignalStart update) s in
      match signalStart E update with
      | Some e =>
          set_coord (CReturned None (Some e)) (emit (EvReturn None (Some e)) s)
      | None =>
          let s := emit EvGoHeartbeat (set_mon MSpawned s) in
          match NewTicker (now s) (tickMinInterval E) with
          | Some t => set_coord CSelect (set_ticks (Some t) s)
          | None =>
              (* the panic of NewTicker unwinds through the defer of line 139 *)
              let s := emit EvCloseStop (set_stop_closed true s) in
              set_coord (CPanicked NonPositiveInterval)
                (emit (EvPanic Adapter NonPositiveInterval) s)
          end
      end
  end.

(** Line 150-151: the select takes [<-ticks.C] and calls Tick. *)
Definition coordinate_take_tick (s : state) : state :=
  let n := n_tick s in
  let s := set_ticks (option_map take (ticks s)) s in
  set_coord (CTicking n) (emit (EvTick n (now s)) (incr_tick s)).

(** Lines 151-163: the n-th Tick comes back. *)
Definition coordinate_tick_done (E : env) (n : nat) (s : state) : state :=
  let '(cont, res, err) := handler_Tick E n in
  if negb cont then coordinate_return res err s
  else
    match res with
    | Some _ =>
        let k := n_update s in
        let s := emit (EvSignalUpdate res) (incr_update s) in
        match signalUpdate E k res with
        | Some e =>
            let s := emit (EvLog at_signal_update_error) s in
            set_coord (CSendCancel e) (emit (EvSend Adapter (Some e)) s)
        | None => set_coord CSelect (emit (EvLog at_signal_update) s)
        end
    | None => set_coord CSelect s
    end.

(** Leaving [heartbeat]: the deferred [heartbeats.Stop()] runs. *)
Definition heartbeat_return (s : state) : state :=
  let s := set_heartbeats (option_map Stop (heartbeats s)) s in
  set_mon MReturned (emit EvMonitorReturn s).

(** Lines 145-149: the select takes [cause := <-cancel] from the monitor
    blocked in its send, which thereby completes; the monitor goes on to
    its [return]. *)
Definition coordinate_take_cancel (E : env) (cause : option error)
  (s : state) : state :=
  let s := heartbeat_return (emit (EvRecv cause) s) in
  let s := emit EvHandlerCancel s in
  let s := match handler_Cancel E with
           | Some _ => emit (EvLog at_activity_cancel_err) s
           | None => s
           end in
  coordinate_return None cause s.

(** *** heartbeat *)

(** Lines 102-119: the select takes [<-heartbeats.C]. *)
Definition heartbeat_beat (E : env) (s : state) : state :=
  let k := n_beat s in
  let s := set_heartbeats (option_map take (heartbeats s)) s in
  let s := emit (EvHeartbeat k) (incr_beat s) in
  let '(status, err) := RecordActivityTaskHeartbeat E k in
  match err with
  | Some e =>
      if is_task_gone E e then
        let s := emit (EvLog at_activity_gone) s in
        set_mon (MSend None) (emit (EvSend Monitor None) s)
      else emit (EvLog at_heartbeat_error) s
  | None =>
      let s := emit (EvLog at_heartbeat_recorded) s in
      match CancelRequested status with
      | None =>
          set_mon (MPanicked NilDereference)
            (emit (EvPanic Monitor NilDereference) s)
      | Some true =>
          let s := emit (EvLog at_activity_cancel_requested) s in
          set_mon (MSend (Some ActivityTaskCanceledError))
            (emit (EvSend Monitor (Some ActivityTaskCanceledError)) s)
      | Some false => s
      end
  end.

(** Line 98. *)
Definition heartbeat_begin (E : env) (s : state) : state :=
  match NewTicker (now s) (heartbeatInterval E) with
  | Some t => set_mon MSelect (set_heartbeats (Some t) s)
  | None =>
      set_mon (MPanicked NonPositiveInterval)
        (emit (EvPanic Monitor NonPositiveInterval) s)
  end.

(** *** The scheduler's alphabet and the step function *)

Inductive action :=
| ACoordBegin          (* the adapter runs lines 127-142 *)
| ACoordTakeTick       (* select of line 144 takes <-ticks.C, Tick is called *)
| ACoordTickDone       (* Tick returns; lines 152-163 *)
| ACoordTakeCancel     (* select of line 144 takes <-cancel *)
| AMonBegin            (* the monitor runs line 98 *)
| AMonBeat             (* select of line 101 takes <-heartbeats.C *)
| AMonTakeStop         (* select of line 101 takes <-stop *)
| AFireTicks           (* the runtime delivers a tick of [ticks] *)
| AFireHeartbeats      (* the runtime delivers a tick of [heartbeats] *)
| AElapse (d : Z).     (* d units of time pass *)

(** [step E a s] is [None] when [a] is not enabled in [s].  An unrecovered
    panic in the monitor goroutine ends the process: nothing is enabled
    afterwards.  No action lets a goroutine blocked in a send on [cancel]
    proceed on its own: the only receive on that channel is the [select]
    of [coordinate]. *)
Definition step (E : env) (a : action) (s : state) : option state :=
  match mon s with
  | MPanicked _ => None
  | _ =>
    match a with
    | ACoordBegin =>
        match coord s with
        | CInit => Some (coordinate_begin E s)
        | _ => None
        end
    | ACoordTakeTick =>
        match coord s with
        | CSelect =>
            if has_tick (ticks s) then Some (coordinate_take_tick s) else None
        | _ => None
        end
    | ACoordTickDone =>
        match coord s with
        | CTicking n => Some (coordinate_tick_done E n s)
        | _ => None
        end
    | ACoordTakeCancel =>
        match coord s, mon s with
        | CSelect, MSend cause => Some (coordinate_take_cancel E cause s)
        | _, _ => None
        end
    | AMonBegin =>
        match mon s with
        | MSpawned => Some (heartbeat_begin E s)
        | _ => None
        end
    | AMonBeat =>
        match mon s with
        | MSelect =>
            if has_tick (heartbeats s) then Some (heartbeat_beat E s) else None
        | _ => None
        end
    | AMonTakeStop =>
        match mon s with
        | MSelect => if stop_closed s then Some (heartbeat_return s) else None
        | _ => None
        end
    | AFireTicks =>
        if due (now s) (ticks s)
        then Some (set_ticks (option_map fire (ticks s)) s) else None
    | AFireHeartbeats =>
        if due (now s) (heartbeats s)
        then Some (set_heartbeats (option_map fire (heartbeats s)) s) else None
    | AElapse d =>
        if (0 <=? d) && not_overdue (now s + d) (ticks s)
           && not_overdue (now s + d) (heartbeats s)
        then Some (set_now (now s + d) s) else None
    end
  end.

Fixpoint run (E : env) (sched : list action) (s : state) : option state :=
  match sched with
  | [] => Some s
  | a :: sched' =>
      match step E a s with
      | Some s' => run E sched' s'
      | None => None
      end
  end.

(** The same transitions as a relation, for proofs by case analysis.
    [alive s]: the process has not died of a panic in the monitor. *)
Definition alive (s : state) : Prop := forall p, mon s <> MPanicked p.

Inductive fires (E : env) (s : state) : action -> state -> Prop :=
| F_CoordBegin :
    coord s = CInit -> fires E s ACoordBegin (coordinate_begin E s)
| F_CoordTakeTick :
    coord s = CSelect -> has_tick (ticks s) = true ->
    fires E s ACoordTakeTick (coordinate_take_tick s)
| F_CoordTickDone n :
    coord s = CTicking n ->
    fires E s ACoordTickDone (coordinate_tick_done E n s)
| F_CoordTakeCancel cause :
    coord s = CSelect -> mon s = MSend cause ->
    fires E s ACoordTakeCancel (coordinate_take_cancel E cause s)
| F_MonBegin :
    mon s = MSpawned -> fires E s AMonBegin (heartbeat_begin E s)
| F_MonBeat :
    mon s = MSelect -> has_tick (heartbeats s) = true ->
    fires E s AMonBeat (heartbeat_beat E s)
| F_MonTakeStop :
    mon s = MSelect -> stop_closed s = true ->
    fires E s AMonTakeStop (heartbeat_return s)
| F_FireTicks :
    due (now s) (ticks s) = true ->
    fires E s AFireTicks (set_ticks (option_map fire (ticks s)) s)
| F_FireHeartbeats :
    due (now s) (heartbeats s) = true ->
    fires E s AFireHeartbeats
      (set_heartbeats (option_map fire (heartbeats s)) s)
| F_Elapse d :
    0 <= d ->
    not_overdue (now s + d) (ticks s) = true ->
    not_overdue (now s + d) (heartbeats s) = true ->
    fires E s (AElapse d) (set_now (now s + d) s).

(** A state the session can be in. *)
Definition reachable (E : env) (s : state) : Prop :=
  exists sched, run E sched init = Some s.

(** *** The specification's view of the result *)

(** The specification's tagged Termination Outcome, read off the Go pair
    (result, error) that [coordinate] returns: the session is [Canceled]
    when it left through the cancel branch (Handler.Cancel was called), and
    otherwise [Completed] or [Failed] by the error of the pair. *)
Inductive outcome :=
| Completed (result : iface)
| Failed (e : error)
| Canceled (cause : option error).

Definition is_handler_cancel (ev : event) : bool :=
  match ev with EvHandlerCancel => true | _ => false end.

Definition is_tick (ev : event) : bool :=
  match ev with EvTick _ _ => true | _ => false end.

Definition outcome_of (s : state) : option outcome :=
  match coord s with
  | CReturned res err =>
      if existsb is_handler_cancel (trace s) then Some (Canceled err)
      else match err with
           | None => Some (Completed res)
           | Some e => Some (Failed e)
           end
  | _ => None
  end.

Definition count (p : event -> bool) (tr : list event) : nat :=
  List.length (List.filter p tr).

Arguments count p tr : simpl never.

(** The error, if any, on which lines 127-133 return before the monitor is
    launched. *)
Definition setup_error (E : env) : option error :=
  match snd (handler_Start E) with
  | Some e => Some e
  | None => signalStart E (fst (handler_Start E))
  end.

Definition is_heartbeat (ev : event) : bool :=
  match ev with EvHeartbeat _ => true | _ => false end.

(** The k-th heartbeat call fails with an error other than the task-gone
    fault. *)
Definition transient (E : env) (k : nat) : bool :=
  match RecordActivityTaskHeartbeat E k with
  | (_, Some e) => negb (is_task_gone E e)
  | (_, None) => false
  end.

Definition is_send_by (g : goroutine) (ev : event) : bool :=
  match ev, g with
  | EvSend Adapter _, Adapter => true
  | EvSend Monitor _, Monitor => true
  | _, _ => false
  end.

Definition ticker_running (t : option ticker) : bool :=
  match t with Some t => running t | None => false end.

(** What makes the monitor send on the cancel channel after its k-th
    heartbeat call, and what it sends (lines 106-108 and 114-116). *)
Inductive cancel_cause (E : env) (k : nat) : option error -> Prop :=
| cause_task_gone status e :
    RecordActivityTaskHeartbeat E k = (status, Some e) ->
    is_task_gone E e = true ->
    cancel_cause E k None
| cause_cancel_requested status :
    RecordActivityTaskHeartbeat E k = (status, None) ->
    CancelRequested status = Some true ->
    cancel_cause E k (Some ActivityTaskCanceledError).

Definition is_recv (ev : event) : bool :=
  match ev with EvRecv _ => true | _ => false end.

(** What line 147 logs. *)
Definition cancel_log (E : env) : list event :=
  match handler_Cancel E with
  | Some _ => [EvLog at_activity_cancel_err]
  | None => []
  end.

(** The events of the cancel branch, lines 145-149, from the receive to
    the return. *)
Definition cancel_branch (E : env) (cause : option error) : list event :=
  [EvRecv cause; EvMonitorReturn; EvHandlerCancel] ++ cancel_log E
  ++ [EvCloseStop; EvReturn None cause].

(** [coordinate] has been left, by a return or by a panic. *)
Definition finished (c : coord_pc) : bool :=
  match c with
  | CReturned _ _ | CPanicked _ => true
  | _ => false
  end.

(** The payloads handed to signalUpdate, in call order. *)
Fixpoint updates_of (tr : list event) : list iface :=
  match tr with
  | [] => []
  | EvSignalUpdate res :: tr' => res :: updates_of tr'
  | _ :: tr' => updates_of tr'
  end.

(** What the n-th Tick gives to forward: its result when it continues
    with a non-nil result (lines 152-157), nothing otherwise. *)
Definition progress_of_tick (E : env) (n : nat) : list iface :=
  match handler_Tick E n with
  | (true, Some r, _) => [Some r]
  | _ => []
  end.

Definition progress_results (E : env) (n : nat) : list iface :=
  flat_map (progress_of_tick E) (seq 0 n).

Arguments progress_results E n : simpl never.

(** The number of Tick calls that have returned. *)
Definition ticks_returned (s : state) : nat :=
  match coord s with
  | CTicking _ => Nat.pred (n_tick s)
  | _ => n_tick s
  end.

(** Completed or Failed, by the error of the pair Tick returned. *)
Definition tick_outcome (res : iface) (err : option error) : outcome :=
  match err with
  | None => Completed res
  | Some e => Failed e
  end.

Definition is_return (ev : event) : bool :=
  match ev with EvReturn _ _ => true | _ => false end.

Definition has_returned (c : coord_pc) : bool :=
  match c with CReturned _ _ => true | _ => false end.

(** Timer ticks the adapter has used or holds, in time units, against the
    time of the next tick: each Tick call uses one tick of [ticks], and a
    tick is worth one period.  Before the ticker exists, the first tick
    is one period away. *)
Definition tick_credit (E : env) (s : state) : Z :=
  match ticks s with
  | Some t =>
      Z.of_nat (n_tick s) * period t
      + (if pending t then period t else 0) - next_fire t
  | None => - (now s + tickMinInterval E)
  end.

(** The times of the Tick calls, in call order. *)
Fixpoint tick_times (tr : list event) : list Z :=
  match tr with
  | [] => []
  | EvTick _ t :: tr' => t :: tick_times tr'
  | _ :: tr' => tick_times tr'
  end.

(** Consecutive times are at least [gap] apart. *)
Fixpoint spaced (gap : Z) (times : list Z) : Prop :=
  match times with
  | t1 :: (t2 :: _) as rest => t1 + gap <= t2 /\ spaced gap rest
  | _ => True
  end.

(** The adapter has something to do right now: it is inside Tick, or it
    is in its select with a tick of [ticks] waiting. *)
Definition busy (s : state) : bool :=
  match coord s with
  | CTicking _ => true
  | CSelect => has_tick (ticks s)
  | _ => false
  end.

(** A schedule along which the adapter is never kept waiting: Tick (with
    the signalUpdate that may follow) takes no time and a waiting tick is
    taken at once, so that time passes only while the adapter is not
    [busy]. *)
Fixpoint prompt (E : env) (sched : list action) (s : state) : bool :=
  match sched with
  | [] => true
  | a :: sched' =>
      match step E a s with
      | Some s' =>
          match a with
          | AElapse d => negb (busy s) || (d =? 0)
          | _ => true
          end && prompt E sched' s'
      | None => true
      end
  end.

(** What ties the times of the Tick calls to the timer, along a [prompt]
    schedule. *)
Definition gap_inv (E : env) (s : state) : Prop :=
  spaced (tickMinInterval E) (tick_times (trace s)) /\
  match ticks s with
  | None => tick_times (trace s) = []
  | Some t =>
      (busy s = true -> pending t = true ->
       now s + period t = next_fire t) /\
      Forall (fun L => L + (if pending t then 2 else 1) * period t
                       <= next_fire t)
             (tick_times (trace s))
  end.

(** *** Sample sessions *)

Definition ok_status : RecordActivityTaskHeartbeatOutput * option error :=
  ({| CancelRequested := Some false |}, None).

(** A session in which nothing ever happens: Tick keeps going without a
    result and every heartbeat is recorded. *)
Definition E_quiet : env :=
  {| heartbeatInterval := 30; tickMinInterval := 50;
     ErrorTypeUnknownResourceFault := "UnknownResourceFault";
     handler_Start := (Some "started", None);
     handler_Tick := fun _ => (true, None, None);
     handler_Cancel := None;
     signalStart := fun _ => None;
     signalUpdate := fun _ _ => None;
     RecordActivityTaskHeartbeat := fun _ => ok_status |}.

(** The first heartbeat comes back with the cancel-requested flag set. *)
Definition E_cancel_requested : env :=
  {| heartbeatInterval := 30; tickMinInterval := 50;
     ErrorTypeUnknownResourceFault := "UnknownResourceFault";
     handler_Start := (Some "started", None);
     handler_Tick := fun _ => (true, None, None);
     handler_Cancel := None;
     signalStart := fun _ => None;
     signalUpdate := fun _ _ => None;
     RecordActivityTaskHeartbeat :=
       fun _ => ({| CancelRequested := Some true |}, None) |}.

Definition gone_fault : error :=
  AwsError "UnknownResourceFault" "Unknown activity: token no longer valid".

(** The third heartbeat fails with the task-gone fault. *)
Definition E_task_gone : env :=
  {| heartbeatInterval := 30; tickMinInterval := 50;
     ErrorTypeUnknownResourceFault := "UnknownResourceFault";
     handler_Start := (Some "started", None);
     handler_Tick := fun _ => (true, None, None);
     handler_Cancel := None;
     signalStart := fun _ => None;
     signalUpdate := fun _ _ => None;
     RecordActivityTaskHeartbeat :=
       fun k => if Nat.ltb k 2 then ok_status
                else ({| CancelRequested := None |}, Some gone_fault) |}.

(** The first heartbeat succeeds with a nil CancelRequested. *)
Definition E_nil_flag : env :=
  {| heartbeatInterval := 30; tickMinInterval := 50;
     ErrorTypeUnknownResourceFault := "UnknownResourceFault";
     handler_Start := (Some "started", None);
     handler_Tick := fun _ => (true, None, None);
     handler_Cancel := None;
     signalStart := fun _ => None;
     signalUpdate := fun _ _ => None;
     RecordActivityTaskHeartbeat :=
       fun _ => ({| CancelRequested := None |}, None) |}.

(** Every heartbeat fails with an error that is not the task-gone fault. *)
Definition E_transient : env :=
  {| heartbeatInterval := 30; tickMinInterval := 50;
     ErrorTypeUnknownResourceFault := "UnknownResourceFault";
     handler_Start := (Some "started", None);
     handler_Tick := fun _ => (true, None, None);
     handler_Cancel := None;
     signalStart := fun _ => None;
     signalUpdate := fun _ _ => None;
     RecordActivityTaskHeartbeat :=
       fun _ => ({| CancelRequested := None |},
                 Some (AwsError "ThrottlingException" "Rate exceeded")) |}.

(** The first Tick continues with a result and signalUpdate fails. *)
Definition E_update_fails : env :=
  {| heartbeatInterval := 30; tickMinInterval := 50;
     ErrorTypeUnknownResourceFault := "UnknownResourceFault";
     handler_Start := (Some "started", None);
     handler_Tick := fun _ => (true, Some "resA", None);
     handler_Cancel := None;
     signalStart := fun _ => None;
     signalUpdate := fun _ _ => Some (OtherError "signal failed");
     RecordActivityTaskHeartbeat := fun _ => ok_status |}.

(** Tick yields (true,resA,nil), (true,resB,nil), (false,resC,nil). *)
Definition E_three_ticks : env :=
  {| heartbeatInterval := 1000; tickMinInterval := 50;
     ErrorTypeUnknownResourceFault := "UnknownResourceFault";
     handler_Start := (Some "started", None);
     handler_Tick :=
       fun n => match n with
                | O => (true, Some "resA", None)
                | S O => (true, Some "resB", None)
                | _ => (false, Some "resC", None)
                end;
     handler_Cancel := None;
     signalStart := fun _ => None;
     signalUpdate := fun _ _ => None;
     RecordActivityTaskHeartbeat := fun _ => ok_status |}.

(** Start fails. *)
Definition E_start_fails : env :=
  {| heartbeatInterval := 30; tickMinInterval := 50;
     ErrorTypeUnknownResourceFault := "UnknownResourceFault";
     handler_Start := (None, Some (OtherError "no such job"));
     handler_Tick := fun _ => (true, None, None);
     handler_Cancel := None;
     signalStart := fun _ => None;
     signalUpdate := fun _ _ => None;
     RecordActivityTaskHeartbeat := fun _ => ok_status |}.

(** The first heartbeat asks for cancellation and the first Tick ends the
    activity. *)
Definition E_cancel_and_finish : env :=
  {| heartbeatInterval := 30; tickMinInterval := 50;
     ErrorTypeUnknownResourceFault := "UnknownResourceFault";
     handler_Start := (Some "started", None);
     handler_Tick := fun _ => (false, Some "done", None);
     handler_Cancel := None;
     signalStart := fun _ => None;
     signalUpdate := fun _ _ => None;
     RecordActivityTaskHeartbeat :=
       fun _ => ({| CancelRequested := Some true |}, None) |}.

(** Both goroutines start, then the heartbeat ticker fires once. *)
Definition sched_first_beat_due : list action :=
  [ACoordBegin; AMonBegin; AElapse 30; AFireHeartbeats].

(** One round of the monitor: wait for the ticker, heartbeat. *)
Definition sched_beat_round : list action :=
  [AElapse 30; AFireHeartbeats; AMonBeat].

(** One round of the adapter with H = 1000: wait for the ticker, Tick. *)
Definition sched_tick_round : list action :=
  [AElapse 50; AFireTicks; ACoordTakeTick; ACoordTickDone].

(** Three heartbeats, at times 30, 60 and 90; the tick ticker fires at 50
    in between. *)
Definition sched_three_beats : list action :=
  sched_first_beat_due
  ++ [AMonBeat; AElapse 20; AFireTicks; AElapse 10; AFireHeartbeats; AMonBeat]
  ++ sched_beat_round.

(** The first heartbeat leads the monitor to send; the adapter takes it. *)
Definition sched_cancel_at_first_beat : list action :=
  sched_first_beat_due ++ [AMonBeat; ACoordTakeCancel].

(** The third heartbeat leads the monitor to send; the adapter takes it. *)
Definition sched_cancel_at_third_beat : list action :=
  sched_three_beats ++ [ACoordTakeCancel].

(** The tick ticker fires once and the adapter calls Tick. *)
Definition sched_first_tick_called : list action :=
  [ACoordBegin; AElapse 50; AFireTicks; ACoordTakeTick].

(** The monitor gets to its send at time 30; the adapter calls Tick at
    time 50 without having taken the signal. *)
Definition sched_send_then_tick : list action :=
  sched_first_beat_due ++ [AMonBeat; AElapse 20; AFireTicks; ACoordTakeTick].

(** signalUpdate fails on the result of the first Tick. *)
Definition sched_update_fails : list action :=
  sched_first_tick_called ++ [ACoordTickDone].

(** With E_three_ticks: two full rounds of the adapter, then the third
    Tick is called. *)
Definition sched_third_tick_called : list action :=
  [ACoordBegin] ++ sched_tick_round ++ sched_tick_round
  ++ [AElapse 50; AFireTicks; ACoordTakeTick].

(** The first Tick takes 90 units of time: the tick of time 100 waits in
    the buffer and is taken at 140, the next one is taken at 150. *)
Definition sched_slow_first_tick : list action :=
  [ACoordBegin; AElapse 50; AFireTicks; ACoordTakeTick;
   AElapse 50; AFireTicks; AElapse 40; ACoordTickDone;
   ACoordTakeTick; ACoordTickDone;
   AElapse 10; AFireTicks; ACoordTakeTick].

Definition state_of (r : option state) : state :=
  match r with Some s => s | None => init end.

(** *** Variations of an environment *)

(** The same environment, except that a Tick that continues comes back
    with a nil error. *)
Definition without_continuing_errors (E : env) : env :=
  {| heartbeatInterval := heartbeatInterval E;
     tickMinInterval := tickMinInterval E;
     ErrorTypeUnknownResourceFault := ErrorTypeUnknownResourceFault E;
     handler_Start := handler_Start E;
     handler_Tick :=
       fun n => let '(cont, res, err) := handler_Tick E n in
                (cont, res, if cont then None else err);
     handler_Cancel := handler_Cancel E;
     signalStart := signalStart E;
     signalUpdate := signalUpdate E;
     RecordActivityTaskHeartbeat := RecordActivityTaskHeartbeat E |}.

(** The same environment, except that a heartbeat call that fails comes
    back with the status [st]. *)
Definition with_status_on_failure (st : RecordActivityTaskHeartbeatOutput)
  (E : env) : env :=
  {| heartbeatInterval := heartbeatInterval E;
     tickMinInterval := tickMinInterval E;
     ErrorTypeUnknownResourceFault := ErrorTypeUnknownResourceFault E;
     handler_Start := handler_Start E;
     handler_Tick := handler_Tick E;
     handler_Cancel := handler_Cancel E;
     signalStart := signalStart E;
     signalUpdate := signalUpdate E;
     RecordActivityTaskHeartbeat :=
       fun k => let '(status, err) := RecordActivityTaskHeartbeat E k in
                match err with
                | Some e => (st, Some e)
                | None => (status, None)
                end |}.

Definition is_start (ev : event) : bool :=
  match ev with EvStart => true | _ => false end.

Definition is_signal_start (ev : event) : bool :=
  match ev with EvSignalStart _ => true | _ => false end.

Definition is_go_heartbeat (ev : event) : bool :=
  match ev with EvGoHeartbeat => true | _ => false end.

(** Sessions with an interval that [time.NewTicker] refuses. *)
Definition E_zero_tick_interval : env :=
  {| heartbeatInterval := 30; tickMinInterval := 0;
     ErrorTypeUnknownResourceFault := "UnknownResourceFault";
     handler_Start := (Some "started", None);
     handler_Tick := fun _ => (true, None, None);
     handler_Cancel := None;
     signalStart := fun _ => None;
     signalUpdate := fun _ _ => None;
     RecordActivityTaskHeartbeat := fun _ => ok_status |}.

Definition E_zero_heartbeat_interval : env :=
  {| heartbeatInterval := 0; tickMinInterval := 50;
     ErrorTypeUnknownResourceFault := "UnknownResourceFault";
     handler_Start := (Some "started", None);
     handler_Tick := fun _ => (true, None, None);
     handler_Cancel := None;
     signalStart := fun _ => None;
     signalUpdate := fun _ _ => None;
     RecordActivityTaskHeartbeat := fun _ => ok_status |}.

(** The first Tick ends the activity at time 50; the monitor has not run
    yet. *)
Definition sched_finish_at_first_tick : list action :=
  [ACoordBegin; AElapse 50; AFireTicks; ACoordTakeTick; ACoordTickDone].

End Coordinated.

(* ------------------------------------------------------------------ *)
(** ** Properties of FuncInterceptor *)

Module InterceptorFacts.
Import Interceptor.

(** C9.  Each of the four methods of a FuncInterceptor does nothing and
    returns normally when its function field is nil, and otherwise runs
    that function once, on exactly the arguments the method received; it
    never panics. *)
Theorem func_interceptor_methods :
  forall (World Task Result Err : Type)
         (i : FuncInterceptor World Task Result Err)
         (activity : Task) (result : Result) (err : Err) (details : string)
         (w : World),
    BeforeTask i activity w =
      match BeforeTaskFn i with
      | None => Returned w
      | Some f => Returned (f activity w)
      end
    /\ AfterTaskComplete i activity result w =
      match AfterTaskCompleteFn i with
      | None => Returned w
      | Some f => Returned (f (activity, result) w)
      end
    /\ AfterTaskFailed i activity err w =
      match AfterTaskFailedFn i with
      | None => Returned w
      | Some f => Returned (f (activity, err) w)
      end
    /\ AfterTaskCanceled i activity details w =
      match AfterTaskCanceledFn i with
      | None => Returned w
      | Some f => Returned (f (activity, details) w)
      end.
Proof.
  intros World Task Result Err [b c f k] activity result err details w.
  unfold BeforeTask, AfterTaskComplete, AfterTaskFailed, AfterTaskCanceled.
  cbn [BeforeTaskFn AfterTaskCompleteFn AfterTaskFailedFn AfterTaskCanceledFn].
  repeat split.
  - destruct b; reflexivity.
  - destruct c; reflexivity.
  - destruct f; reflexivity.
  - destruct k; reflexivity.
Qed.

End InterceptorFacts.

(* ------------------------------------------------------------------ *)
(** ** Properties of the coordinated activity adapter *)

Module CoordinatedFacts.
Import Coordinated.

(** *** Schedules *)

Lemma run_app E sched1 sched2 s :
  run E (sched1 ++ sched2) s =
  match run E sched1 s with
  | Some s' => run E sched2 s'
  | None => None
  end.
Proof.
  revert s; induction sched1 as [|a sched1 IH]; intros s; simpl.
  - reflexivity.
  - destruct (step E a s); [apply IH | reflexivity].
Qed.

(** An invariant of [step] holds all along every schedule. *)
Lemma run_invariant E (P : state -> Prop) :
  (forall a s s', P s -> step E a s = Some s' -> P s') ->
  forall sched s s', P s -> run E sched s = Some s' -> P s'.
Proof.
  intros Hstep sched; induction sched as [|a sched IH]; intros s s' HP Hrun;
    simpl in Hrun.
  - injection Hrun as <-; exact HP.
  - destruct (step E a s) as [s1|] eqn:Hs; [|discriminate].
    eapply IH; [eapply Hstep; eassumption | exact Hrun].
Qed.

Lemma reachable_invariant E (P : state -> Prop) :
  P init ->
  (forall a s s', P s -> step E a s = Some s' -> P s') ->
  forall s, reachable E s -> P s.
Proof.
  intros H0 Hstep s [sched Hrun].
  eapply run_invariant; eassumption.
Qed.

Lemma reachable_init E : reachable E init.
Proof. exists []; reflexivity. Qed.

Lemma reachable_run E sched s s' :
  reachable E s -> run E sched s = Some s' -> reachable E s'.
Proof.
  intros [sched0 H0] H; exists (sched0 ++ sched).
  rewrite run_app, H0; exact H.
Qed.

Lemma reachable_step E a s s' :
  reachable E s -> step E a s = Some s' -> reachable E s'.
Proof.
  intros Hr Hs; apply (reachable_run E [a] s s' Hr); simpl; rewrite Hs;
    reflexivity.
Qed.

Lemma reachable_induction E (P : state -> Prop) :
  P init ->
  (forall a s s', reachable E s -> P s -> step E a s = Some s' -> P s') ->
  forall s, reachable E s -> P s.
Proof.
  intros H0 Hstep s Hr.
  apply (reachable_invariant E (fun s => reachable E s /\ P s)); auto.
  - split; [apply reachable_init | exact H0].
  - intros a s0 s1 [Hr0 HP0] Hs; split.
    + eapply reachable_step; eassumption.
    + eapply Hstep; eassumption.
Qed.

(** [step] and [fires] describe the same transitions. *)
Lemma step_fires E a s s' :
  step E a s = Some s' <-> alive s /\ fires E s a s'.
Proof.
  split.
  - intros H. assert (Ha : alive s).
    { intros p Hp; unfold step in H; rewrite Hp in H; discriminate. }
    split; [exact Ha|].
    unfold step in H.
    destruct (mon s) eqn:Hm; try (exfalso; eapply Ha; eassumption);
      destruct a; cbv beta iota in H;
      repeat match type of H with
             | context [match ?x with _ => _ end] =>
                 destruct x eqn:?; cbv beta iota in H; try discriminate H
             end;
      try discriminate H;
      injection H as <-;
      repeat match goal with
             | Hb : (_ && _)%bool = true |- _ => apply andb_prop in Hb; destruct Hb
             end;
      try (constructor; solve [assumption | congruence | lia]).
  - intros [Ha Hf].
    destruct Hf; unfold step;
      repeat match goal with
             | Hc : coord s = _ |- _ => rewrite Hc
             | Hm : mon s = _ |- _ => rewrite Hm
             | Hb : _ = true |- _ => rewrite Hb
             end; try reflexivity;
      try (destruct (mon s) eqn:Hm; try reflexivity;
           exfalso; eapply Ha; eassumption).
    destruct (mon s) eqn:Hm; try (exfalso; eapply Ha; eassumption);
      (replace (0 <=? d) with true by (symmetry; apply Z.leb_le; assumption));
      reflexivity.
Qed.

(** Case analysis on an enabled step: one goal per transition. *)
Ltac step_inv H :=
  let Ha := fresh "Halive" in
  apply step_fires in H; destruct H as [Ha H]; destruct H.

(** Unfold the transition functions and split on what the environment
    answers. *)
Ltac open_transitions :=
  unfold coordinate_begin, coordinate_take_tick, coordinate_tick_done,
    coordinate_take_cancel, coordinate_return, heartbeat_beat,
    heartbeat_begin, heartbeat_return in *.

(** The same, call by call, simplifying in between. *)
Ltac split_calls E :=
  repeat (cbn;
    match goal with
    | |- context [handler_Start E] =>
        destruct (handler_Start E) as [? [?|]] eqn:?
    | |- context [signalStart E ?u] => destruct (signalStart E u) eqn:?
    | |- context [NewTicker ?a ?b] => destruct (NewTicker a b) eqn:?
    | |- context [handler_Tick E ?n] =>
        destruct (handler_Tick E n) as [[[|] [?|]] ?] eqn:?
    | |- context [signalUpdate E ?k ?r] => destruct (signalUpdate E k r) eqn:?
    | |- context [handler_Cancel E] => destruct (handler_Cancel E) eqn:?
    | |- context [RecordActivityTaskHeartbeat E ?k] =>
        destruct (RecordActivityTaskHeartbeat E k) as [? [?|]] eqn:?
    | |- context [is_task_gone E ?e] => destruct (is_task_gone E e) eqn:?
    | |- context [CancelRequested ?st] =>
        destruct (CancelRequested st) as [[|]|] eqn:?
    end).

Ltac split_env :=
  repeat match goal with
         | |- context [match ?x with _ => _ end] => destruct x eqn:?
         | |- context [if ?x then _ else _] => destruct x eqn:?
         end.

(** *** C10: the CancelRequested pointer *)

Lemma heartbeat_beat_mon E s :
  mon (heartbeat_beat E s) =
  match RecordActivityTaskHeartbeat E (n_beat s) with
  | (_, Some e) => if is_task_gone E e then MSend None else mon s
  | (status, None) =>
      match CancelRequested status with
      | None => MPanicked NilDereference
      | Some true => MSend (Some ActivityTaskCanceledError)
      | Some false => mon s
      end
  end.
Proof.
  unfold heartbeat_beat; cbn [n_beat set_heartbeats incr_beat emit].
  destruct (RecordActivityTaskHeartbeat E (n_beat s)) as [status [e|]].
  - destruct (is_task_gone E e); reflexivity.
  - destruct (CancelRequested status) as [[|]|]; reflexivity.
Qed.

Lemma no_nil_dereference_step E :
  (forall k status, RecordActivityTaskHeartbeat E k = (status, None) ->
                    CancelRequested status <> None) ->
  forall a s s', mon s <> MPanicked NilDereference ->
                 step E a s = Some s' -> mon s' <> MPanicked NilDereference.
Proof.
  intros Hflag a s s' Hs Hstep.
  step_inv Hstep; try (cbn; congruence).
  - open_transitions; split_env; cbn; congruence.
  - open_transitions; split_env; cbn; congruence.
  - open_transitions; split_env; cbn; congruence.
  - open_transitions; split_env; cbn; congruence.
  - rewrite heartbeat_beat_mon.
    destruct (RecordActivityTaskHeartbeat E (n_beat s)) as [status [e|]] eqn:Hr.
    + destruct (is_task_gone E e); congruence.
    + specialize (Hflag _ _ Hr).
      destruct (CancelRequested status) as [[|]|]; congruence.
Qed.

(** C10.  After a successful heartbeat call the monitor dereferences
    CancelRequested whatever it is: it panics on a nil pointer exactly when
    the flag of the successful response is nil; and if every successful
    response carries a non-nil flag, no session ever reaches that panic. *)
Theorem heartbeat_dereferences_cancel_requested E :
  (forall s status,
      mon s = MSelect -> has_tick (heartbeats s) = true ->
      RecordActivityTaskHeartbeat E (n_beat s) = (status, None) ->
      exists s', step E AMonBeat s = Some s' /\
                 (CancelRequested status = None <->
                  mon s' = MPanicked NilDereference))
  /\ ((forall k status, RecordActivityTaskHeartbeat E k = (status, None) ->
                        CancelRequested status <> None) ->
      forall s, reachable E s -> mon s <> MPanicked NilDereference).
Proof.
  split.
  - intros s status Hm Ht Hr.
    exists (heartbeat_beat E s); split.
    + unfold step; rewrite Hm, Ht; reflexivity.
    + rewrite heartbeat_beat_mon, Hr, Hm.
      destruct (CancelRequested status) as [[|]|]; split; congruence.
  - intros Hflag s Hreach.
    apply (reachable_invariant E (fun s => mon s <> MPanicked NilDereference));
      [cbn; congruence | | exact Hreach].
    intros a s0 s1; apply no_nil_dereference_step; exact Hflag.
Qed.

Lemma heartbeat_dereferences_cancel_requested_witness :
  (exists s', step E_nil_flag AMonBeat
                (state_of (run E_nil_flag sched_first_beat_due init)) = Some s'
              /\ mon s' = MPanicked NilDereference)
  /\ mon (state_of (run E_quiet sched_first_beat_due init))
     <> MPanicked NilDereference.
Proof.
  split.
  - destruct (proj1 (heartbeat_dereferences_cancel_requested E_nil_flag)
                (state_of (run E_nil_flag sched_first_beat_due init))
                {| CancelRequested := None |}
                eq_refl eq_refl eq_refl) as [s' [Hs Hiff]].
    exists s'; split; [exact Hs | apply Hiff; reflexivity].
  - apply (proj2 (heartbeat_dereferences_cancel_requested E_quiet)).
    + intros k status H; injection H as <-; discriminate.
    + exists sched_first_beat_due; vm_compute; reflexivity.
Defined.

(** *** Traces only grow *)

Lemma step_trace_extends E a s s' :
  step E a s = Some s' -> exists evs, trace s' = trace s ++ evs.
Proof.
  intros H; step_inv H; open_transitions; split_env; cbn;
    first [ exists []; rewrite app_nil_r; reflexivity
          | eexists; repeat rewrite <- app_assoc; reflexivity ].
Qed.

Lemma count_app p tr1 tr2 :
  count p (tr1 ++ tr2) = (count p tr1 + count p tr2)%nat.
Proof. unfold count; rewrite filter_app, length_app; reflexivity. Qed.

Lemma count_snoc p tr ev :
  count p (tr ++ [ev]) = (count p tr + (if p ev then 1 else 0))%nat.
Proof. rewrite count_app; unfold count; cbn; destruct (p ev); reflexivity. Qed.

Ltac count_snoc := cbn; rewrite ?count_snoc; cbn.

(** Reduce the counts of a trace extended by known events, from the counts
    of the trace before that the context gives. *)
Ltac count_crunch :=
  cbn; rewrite ?count_app;
  repeat match goal with
         | Hcnt : count _ _ = _ |- _ => rewrite Hcnt
         end;
  unfold count; cbn.

(** *** C4: setup failures, and the order of SignalStart and Tick *)

Lemma setup_failure_invariant E e :
  setup_error E = Some e ->
  forall s, reachable E s ->
    mon s = MNotStarted /\ heartbeats s = None /\ ticks s = None /\
    ((coord s = CInit /\ trace s = []) \/
     (coord s = CReturned None (Some e) /\
      (trace s = [EvStart; EvReturn None (Some e)] \/
       trace s = [EvStart; EvSignalStart (fst (handler_Start E));
                  EvReturn None (Some e)]))).
Proof.
  intros Hsetup. apply reachable_invariant.
  - cbn; auto 10.
  - intros a s s' (Hm & Hh & Ht & Hc) Hstep.
    step_inv Hstep; try congruence;
      try (destruct Hc as [[Hc _]|[Hc _]]; congruence);
      try (rewrite ?Hh, ?Ht in *; cbn in *; discriminate).
    + destruct Hc as [[Hc Htr]|[Hc _]]; [|congruence].
      unfold setup_error in Hsetup. unfold coordinate_begin.
      destruct (handler_Start E) as [u [e0|]]; cbn in Hsetup |- *.
      * injection Hsetup as ->. rewrite Htr; cbn; auto 10.
      * rewrite Hsetup; cbn. rewrite Htr; cbn; auto 10.
    + cbn; auto.
Qed.

Lemma started_trace_invariant E :
  forall s, reachable E s ->
    (coord s = CInit /\ mon s = MNotStarted /\ trace s = []) \/
    (coord s <> CInit /\
     exists rest, trace s = EvStart :: rest /\
       (snd (handler_Start E) = None ->
        exists rest', rest = EvSignalStart (fst (handler_Start E)) :: rest')).
Proof.
  apply reachable_invariant.
  - left; cbn; auto.
  - intros a s s' Hinv Hstep.
    destruct Hinv as [(Hc & Hm & Htr)|(Hc & rest & Htr & Hrest)].
    + step_inv Hstep; try congruence; try (left; cbn; auto; fail).
      right. unfold coordinate_begin.
      destruct (handler_Start E) as [u [e0|]]; cbn.
      * rewrite Htr; cbn. split; [congruence|]. eexists; split; [reflexivity|].
        discriminate.
      * destruct (signalStart E u); cbn.
        -- rewrite Htr; cbn; split; [congruence|]; eauto.
        -- destruct (NewTicker _ _); cbn; rewrite Htr; cbn;
             (split; [congruence|]); eauto.
    + right. destruct (step_trace_extends _ _ _ _ Hstep) as [evs Hevs].
      split.
      * step_inv Hstep; try congruence; open_transitions; split_env; cbn;
          congruence.
      * exists (rest ++ evs). rewrite Hevs, Htr. split; [reflexivity|].
        intros Hs; destruct (Hrest Hs) as [rest' ->].
        exists (rest' ++ evs); reflexivity.
Qed.

(** C4.  If Start fails, or Start succeeds and the initial SignalStart
    fails, with error e, then coordinate returns (nil, e), that is
    Failed(e); the monitor is never launched, and Tick and Cancel are never
    called.  If both succeed, the call of SignalStart with the value Start
    returned precedes every call of Tick. *)
Theorem setup_failure_and_start_order E :
  (forall e, setup_error E = Some e ->
     (exists s1, step E ACoordBegin init = Some s1 /\
                 coord s1 = CReturned None (Some e) /\
                 outcome_of s1 = Some (Failed e))
     /\ forall s, reachable E s ->
          (coord s = CInit \/
           (coord s = CReturned None (Some e) /\
            outcome_of s = Some (Failed e)))
          /\ mon s = MNotStarted /\ heartbeats s = None
          /\ ~ In EvGoHeartbeat (trace s)
          /\ count is_heartbeat (trace s) = 0%nat
          /\ count is_tick (trace s) = 0%nat
          /\ count is_handler_cancel (trace s) = 0%nat)
  /\ (setup_error E = None ->
      forall s, reachable E s ->
      forall pre n t post, trace s = pre ++ EvTick n t :: post ->
                         In (EvSignalStart (fst (handler_Start E))) pre).
Proof.
  split.
  - intros e Hsetup.
    assert (Hall : forall s, reachable E s ->
          (coord s = CInit \/
           (coord s = CReturned None (Some e) /\
            outcome_of s = Some (Failed e)))
          /\ mon s = MNotStarted /\ heartbeats s = None
          /\ ~ In EvGoHeartbeat (trace s)
          /\ count is_heartbeat (trace s) = 0%nat
          /\ count is_tick (trace s) = 0%nat
          /\ count is_handler_cancel (trace s) = 0%nat).
    { intros s Hr.
      destruct (setup_failure_invariant E e Hsetup s Hr)
        as (Hm & Hh & _ & [[Hc Htr]|[Hc [Htr|Htr]]]);
        (repeat split; try assumption);
        try (rewrite Htr; cbn; intuition discriminate);
        try (rewrite Htr; reflexivity).
      - left; exact Hc.
      - right; split; [exact Hc|]. unfold outcome_of; rewrite Hc, Htr.
        reflexivity.
      - right; split; [exact Hc|]. unfold outcome_of; rewrite Hc, Htr.
        reflexivity. }
    split; [|exact Hall].
    assert (Hs1 : step E ACoordBegin init = Some (coordinate_begin E init))
      by reflexivity.
    exists (coordinate_begin E init); split; [exact Hs1|].
    destruct (Hall _ (reachable_step _ _ _ _ (reachable_init E) Hs1))
      as ([Hc|[Hc Ho]] & _); [|auto].
    exfalso. revert Hc. unfold coordinate_begin; split_env; cbn; congruence.
  - intros Hsetup s Hr pre n t post Htr.
    unfold setup_error in Hsetup.
    destruct (snd (handler_Start E)) eqn:Hs; [discriminate|].
    destruct (started_trace_invariant E s Hr)
      as [(_ & _ & Hnil)|(_ & rest & Hrest & Hsig)].
    + rewrite Hnil in Htr; destruct pre; discriminate.
    + destruct (Hsig Hs) as [rest' ->]. rewrite Hrest in Htr.
      destruct pre as [|ev1 [|ev2 pre']]; cbn in Htr; try discriminate.
      injection Htr as _ <- _. right; left; reflexivity.
Qed.

Lemma setup_failure_and_start_order_witness :
  (exists s1, step E_start_fails ACoordBegin init = Some s1 /\
              coord s1 = CReturned None (Some (OtherError "no such job")) /\
              outcome_of s1 = Some (Failed (OtherError "no such job")))
  /\ In (EvSignalStart (Some "started"))
        [EvStart; EvSignalStart (Some "started"); EvGoHeartbeat].
Proof.
  split.
  - exact (proj1 (proj1 (setup_failure_and_start_order E_start_fails)
                    (OtherError "no such job") eq_refl)).
  - apply (proj2 (setup_failure_and_start_order E_three_ticks) eq_refl
             (state_of (run E_three_ticks (ACoordBegin :: sched_tick_round) init)))
      with (n := 0%nat) (t := 50) (post := [EvSignalUpdate (Some "resA");
                                  EvLog at_signal_update]).
    + exists (ACoordBegin :: sched_tick_round); vm_compute; reflexivity.
    + vm_compute; reflexivity.
Defined.

(** *** C5: transient heartbeat failures *)

Lemma transient_only_invariant E :
  0 < heartbeatInterval E ->
  forall s, reachable E s ->
    (forall k, (k < n_beat s)%nat -> transient E k = true) ->
    count (is_send_by Monitor) (trace s) = 0%nat /\
    (mon s = MNotStarted \/ mon s = MSpawned \/
     (mon s = MSelect /\ ticker_running (heartbeats s) = true) \/
     (mon s = MReturned /\ stop_closed s = true)).
Proof.
  intros HH.
  refine (reachable_invariant E
            (fun s => (forall k, (k < n_beat s)%nat -> transient E k = true)
                      -> _) _ _).
  - intros _; cbn; auto.
  - intros a s s' IH Hstep Hall.
    assert (Hle : (n_beat s <= n_beat s')%nat).
    { clear IH Hall. step_inv Hstep; open_transitions; split_env; cbn; lia. }
    destruct IH as [Hcnt Hmon]; [intros k Hk; apply Hall; lia|].
    step_inv Hstep;
      try (split; [exact Hcnt | exact Hmon]);
      try (exfalso; intuition congruence).
    + (* ACoordBegin *)
      unfold coordinate_begin; split_env; count_crunch; auto 6.
    + (* ACoordTakeTick *)
      unfold coordinate_take_tick; count_crunch; auto.
    + (* ACoordTickDone *)
      open_transitions; split_env; count_crunch; intuition auto.
    + (* AMonBegin *)
      unfold heartbeat_begin, NewTicker.
      destruct (heartbeatInterval E <=? 0) eqn:Hz;
        [apply Z.leb_le in Hz; lia|].
      cbn; auto 6.
    + (* AMonBeat *)
      assert (Ht : transient E (n_beat s) = true).
      { apply Hall. revert Hle. unfold heartbeat_beat; split_env; cbn; lia. }
      unfold transient in Ht. unfold heartbeat_beat.
      destruct (RecordActivityTaskHeartbeat E (n_beat s)) as [st [e|]];
        [|discriminate].
      apply negb_true_iff in Ht; rewrite Ht; count_crunch.
      split; [reflexivity|].
      right; right; left. split; [assumption|].
      destruct Hmon as [?|[?|[[_ Hrun]|[? _]]]]; try congruence.
      destruct (heartbeats s); [exact Hrun | discriminate].
    + (* AMonTakeStop *)
      unfold heartbeat_return; count_crunch; auto 6.
    + (* AFireHeartbeats *)
      cbn. split; [exact Hcnt|].
      destruct Hmon as [?|[?|[[? Hrun]|?]]]; auto 6.
      right; right; left; split; [assumption|].
      destruct (heartbeats s); [exact Hrun | discriminate].
Qed.

(** C5.  A heartbeat call that fails with an error other than the
    task-gone fault makes the monitor log it and go back to its select:
    nothing is sent on the cancel channel, the ticker keeps running and the
    adapter is not disturbed; from its select the monitor makes the next
    heartbeat call when the next tick of its ticker is delivered.  Hence,
    however many heartbeat calls have failed that way in a row, the monitor
    has sent nothing and is still heartbeating, unless the adapter has told
    it to stop. *)
Theorem transient_heartbeat_failure_is_survived E :
  (forall s status e,
      mon s = MSelect -> has_tick (heartbeats s) = true ->
      RecordActivityTaskHeartbeat E (n_beat s) = (status, Some e) ->
      is_task_gone E e = false ->
      exists s', step E AMonBeat s = Some s' /\
                 mon s' = MSelect /\ coord s' = coord s /\
                 n_beat s' = S (n_beat s) /\
                 ticker_running (heartbeats s') = ticker_running (heartbeats s) /\
                 trace s' = trace s ++ [EvHeartbeat (n_beat s);
                                        EvLog at_heartbeat_error])
  /\ (forall s,
        mon s = MSelect -> due (now s) (heartbeats s) = true ->
        exists s1 s2, step E AFireHeartbeats s = Some s1 /\
                      step E AMonBeat s1 = Some s2 /\
                      n_beat s2 = S (n_beat s))
  /\ (0 < heartbeatInterval E ->
      forall s, reachable E s ->
        (forall k, (k < n_beat s)%nat -> transient E k = true) ->
        count (is_send_by Monitor) (trace s) = 0%nat /\
        (mon s = MNotStarted \/ mon s = MSpawned \/
         (mon s = MSelect /\ ticker_running (heartbeats s) = true) \/
         (mon s = MReturned /\ stop_closed s = true))).
Proof.
  split.
  - intros s status e Hm Ht Hr Hg.
    exists (heartbeat_beat E s). split.
    + unfold step; rewrite Hm, Ht; reflexivity.
    + unfold heartbeat_beat; rewrite Hr, Hg; cbn.
      rewrite <- app_assoc. repeat split; try assumption.
      destruct (heartbeats s); reflexivity.
  - split; [|apply transient_only_invariant].
    intros s Hm Hdue.
    exists (set_heartbeats (option_map fire (heartbeats s)) s).
    exists (heartbeat_beat E (set_heartbeats (option_map fire (heartbeats s)) s)).
    split; [unfold step; rewrite Hm, Hdue; reflexivity|]. split.
    + unfold step; cbn. rewrite Hm.
      destruct (heartbeats s); [reflexivity | discriminate].
    + unfold heartbeat_beat; split_env; reflexivity.
Qed.

Lemma transient_heartbeat_failure_is_survived_witness :
  (exists s', step E_transient AMonBeat
                (state_of (run E_transient sched_first_beat_due init)) = Some s'
              /\ mon s' = MSelect /\ n_beat s' = 1%nat)
  /\ mon (state_of (run E_transient
                      sched_three_beats init)) = MSelect.
Proof.
  split.
  - destruct (proj1 (transient_heartbeat_failure_is_survived E_transient)
                (state_of (run E_transient sched_first_beat_due init))
                {| CancelRequested := None |}
                (AwsError "ThrottlingException" "Rate exceeded")
                eq_refl eq_refl eq_refl eq_refl)
      as (s' & Hs & Hm & _ & Hn & _).
    exists s'; auto.
  - destruct (proj2 (proj2 (transient_heartbeat_failure_is_survived E_transient))
                eq_refl
                (state_of (run E_transient
                      sched_three_beats init)))
      as [_ [H|[H|[[H _]|[H _]]]]]; try (vm_compute in H; discriminate H).
    + exists sched_three_beats; vm_compute; reflexivity.
    + intros k _; reflexivity.
    + exact H.
Defined.

(** *** C1: the cause of a cancellation *)

Lemma count_zero_not_in p tr ev :
  count p tr = 0%nat -> In ev tr -> p ev = false.
Proof.
  unfold count; intros Hc Hin.
  destruct (p ev) eqn:Hp; [|reflexivity].
  assert (Hf : In ev (filter p tr)) by (apply filter_In; auto).
  destruct (filter p tr); [contradiction | discriminate].
Qed.

Ltac keep_send Hsend :=
  let c := fresh "c" in
  let Hc := fresh "Hc" in
  intros c Hc; cbn in Hc; try discriminate Hc;
  let k := fresh "k" in
  destruct (Hsend c Hc) as (? & k & ? & ?);
  split;
  [ cbn; repeat (apply in_or_app; left); assumption
  | exists k; split; assumption ].

Lemma cancel_invariant E :
  forall s, reachable E s ->
    (forall c, mon s = MSend c ->
               In (EvSend Monitor c) (trace s) /\
               exists k, n_beat s = S k /\ cancel_cause E k c) /\
    ((count is_recv (trace s) = 0%nat /\
      count is_handler_cancel (trace s) = 0%nat)
     \/
     (exists cause k pre,
         n_beat s = S k /\ cancel_cause E k cause /\
         trace s = pre ++ cancel_branch E cause /\
         count is_recv pre = 0%nat /\
         count is_handler_cancel pre = 0%nat /\
         In (EvSend Monitor cause) pre /\
         coord s = CReturned None cause /\ mon s = MReturned)).
Proof.
  apply reachable_invariant.
  - split; [cbn; discriminate | left; split; reflexivity].
  - intros a s s' [Hsend Hcase] Hstep.
    destruct Hcase
      as [[Hr Hc]|(cause & k & pre & Hk & Hcc & Htr & Hpr & Hpc & Hin & Hco & Hmo)].
    + step_inv Hstep; try (split; [exact Hsend | left; split; assumption]).
      * (* ACoordBegin *)
        split.
        -- unfold coordinate_begin; split_env; keep_send Hsend.
        -- left. unfold coordinate_begin; split_env;
             split; count_crunch; reflexivity.
      * split; [unfold coordinate_take_tick; keep_send Hsend|]. left.
        unfold coordinate_take_tick; split; count_crunch;
          reflexivity.
      * split.
        -- open_transitions; split_env; keep_send Hsend.
        -- left. open_transitions; split_env; split; count_crunch;
             reflexivity.
      * (* ACoordTakeCancel *)
        destruct (Hsend _ H0) as (Hin & k & Hk & Hcc).
        split.
        -- unfold coordinate_take_cancel; split_env; cbn; discriminate.
        -- right. exists cause, k, (trace s).
           unfold coordinate_take_cancel, cancel_branch, cancel_log.
           destruct (handler_Cancel E); cbn;
             repeat rewrite <- app_assoc; cbn; auto 10.
      * split.
        -- unfold heartbeat_begin; split_env; cbn; discriminate.
        -- left. unfold heartbeat_begin; split_env; split; count_crunch;
             reflexivity.
      * (* AMonBeat *)
        split.
        -- intros c. rewrite heartbeat_beat_mon.
           assert (Hn : n_beat (heartbeat_beat E s) = S (n_beat s))
             by (unfold heartbeat_beat; split_env; reflexivity).
           rewrite Hn.
           destruct (RecordActivityTaskHeartbeat E (n_beat s))
             as [status [e|]] eqn:Hresp.
           ++ destruct (is_task_gone E e) eqn:Hg; [|congruence].
              intros Hc'; injection Hc' as <-. split.
              ** unfold heartbeat_beat; rewrite Hresp, Hg; cbn.
                 apply in_or_app; right; left; reflexivity.
              ** exists (n_beat s); split; [reflexivity|].
                 econstructor; eassumption.
           ++ destruct (CancelRequested status) as [[|]|] eqn:Hf;
                try congruence.
              intros Hc'; injection Hc' as <-. split.
              ** unfold heartbeat_beat; rewrite Hresp, Hf; cbn.
                 apply in_or_app; right; left; reflexivity.
              ** exists (n_beat s); split; [reflexivity|].
                 econstructor; eassumption.
        -- left. unfold heartbeat_beat; split_env; split; count_crunch;
             reflexivity.
      * split.
        -- unfold heartbeat_return; cbn; discriminate.
        -- left. unfold heartbeat_return; split; count_crunch;
             reflexivity.
    + assert (Hsame : trace s' = trace s /\ n_beat s' = n_beat s /\
                      coord s' = coord s /\ mon s' = mon s).
      { step_inv Hstep; try congruence; cbn; auto. }
      destruct Hsame as (Et & En & Ec & Em).
      split.
      * intros c; rewrite Em, Hmo; discriminate.
      * right. exists cause, k, pre. rewrite Et, En, Ec, Em. auto 10.
Qed.

Lemma existsb_count p tr : (0 < count p tr)%nat -> existsb p tr = true.
Proof.
  unfold count; induction tr as [|ev tr IH]; cbn; [lia|].
  destruct (p ev); cbn; auto.
Qed.

(** Every received signal: where it came from and what follows it. *)
Lemma cancel_received E s cause :
  reachable E s -> In (EvRecv cause) (trace s) ->
  exists k pre,
    n_beat s = S k /\ cancel_cause E k cause /\
    trace s = pre ++ cancel_branch E cause /\
    count is_recv pre = 0%nat /\
    count is_handler_cancel pre = 0%nat /\
    In (EvSend Monitor cause) pre /\
    coord s = CReturned None cause /\ mon s = MReturned.
Proof.
  intros Hr Hin.
  destruct (cancel_invariant E s Hr)
    as [_ [[Hz _]|(c & k & pre & Hk & Hcc & Htr & Hpr & Hpc & Hs & Hco & Hmo)]].
  - apply (count_zero_not_in _ _ _ Hz) in Hin; discriminate.
  - assert (c = cause) as ->.
    { rewrite Htr in Hin. apply in_app_or in Hin. destruct Hin as [Hin|Hin].
      - apply (count_zero_not_in _ _ _ Hpr) in Hin; discriminate.
      - unfold cancel_branch, cancel_log in Hin.
        destruct (handler_Cancel E); cbn in Hin;
          repeat (destruct Hin as [Hin|Hin]; try discriminate;
                  try (injection Hin as <-; reflexivity));
          contradiction. }
    exists k, pre. auto 10.
Qed.

(** C1, as the code has it.  Whenever the adapter receives a cancellation
    signal, the signal was sent by the monitor after its latest heartbeat
    call; its cause is nil when that call failed with the task-gone fault
    and the marker ActivityTaskCanceledError when that call succeeded with
    the cancel-requested flag set.  The adapter then calls Handler.Cancel,
    once, and returns (nil, cause): Canceled(cause). *)
Theorem cancellation_outcome E s cause :
  reachable E s -> In (EvRecv cause) (trace s) ->
  exists k pre,
    n_beat s = S k /\ cancel_cause E k cause /\
    trace s = pre ++ cancel_branch E cause /\
    count is_handler_cancel (trace s) = 1%nat /\
    coord s = CReturned None cause /\
    outcome_of s = Some (Canceled cause).
Proof.
  intros Hr Hin.
  destruct (cancel_received E s cause Hr Hin)
    as (k & pre & Hk & Hcc & Htr & Hpr & Hpc & _ & Hco & _).
  assert (Hone : count is_handler_cancel (trace s) = 1%nat).
  { rewrite Htr, count_app, Hpc. unfold cancel_branch, cancel_log.
    destruct (handler_Cancel E); reflexivity. }
  exists k, pre. repeat split; try assumption.
  unfold outcome_of. rewrite Hco, existsb_count; [reflexivity | lia].
Qed.

Lemma cancellation_outcome_witness :
  exists k pre,
    n_beat (state_of (run E_task_gone sched_cancel_at_third_beat init)) = S k /\
    cancel_cause E_task_gone k None /\
    trace (state_of (run E_task_gone sched_cancel_at_third_beat init)) =
      pre ++ cancel_branch E_task_gone None /\
    count is_handler_cancel
      (trace (state_of (run E_task_gone sched_cancel_at_third_beat init)))
      = 1%nat /\
    coord (state_of (run E_task_gone sched_cancel_at_third_beat init))
      = CReturned None None /\
    outcome_of (state_of (run E_task_gone sched_cancel_at_third_beat init))
      = Some (Canceled None).
Proof.
  apply (cancellation_outcome E_task_gone
           (state_of (run E_task_gone sched_cancel_at_third_beat init)) None).
  - exists sched_cancel_at_third_beat; vm_compute; reflexivity.
  - vm_compute; tauto.
Defined.

(** C1 as worded fails: a clean cancel-request (a successful heartbeat
    with the flag set) ends in Canceled with the marker, not with a nil
    cause; and the task-gone fault ends in Canceled with a nil cause, not
    with the marker. *)
Lemma cancel_request_cause_is_the_marker :
  RecordActivityTaskHeartbeat E_cancel_requested 0
    = ({| CancelRequested := Some true |}, None)
  /\ run E_cancel_requested sched_cancel_at_first_beat init
     = Some (state_of (run E_cancel_requested sched_cancel_at_first_beat init))
  /\ outcome_of (state_of (run E_cancel_requested sched_cancel_at_first_beat init))
     = Some (Canceled (Some ActivityTaskCanceledError))
  /\ outcome_of (state_of (run E_cancel_requested sched_cancel_at_first_beat init))
     <> Some (Canceled None)
  /\ snd (RecordActivityTaskHeartbeat E_task_gone 2) = Some gone_fault
  /\ is_task_gone E_task_gone gone_fault = true
  /\ run E_task_gone sched_cancel_at_third_beat init
     = Some (state_of (run E_task_gone sched_cancel_at_third_beat init))
  /\ outcome_of (state_of (run E_task_gone sched_cancel_at_third_beat init))
     = Some (Canceled None)
  /\ outcome_of (state_of (run E_task_gone sched_cancel_at_third_beat init))
     <> Some (Canceled (Some ActivityTaskCanceledError)).
Proof.
  vm_compute. repeat split; discriminate.
Qed.

(** *** C2: a failing signalUpdate *)

Lemma adapter_blocked_step E a s s' e :
  coord s = CSendCancel e -> step E a s = Some s' ->
  coord s' = CSendCancel e /\
  count is_handler_cancel (trace s') = count is_handler_cancel (trace s) /\
  count is_recv (trace s') = count is_recv (trace s).
Proof.
  intros Hc Hstep.
  step_inv Hstep; try congruence; try (cbn; auto; fail);
    open_transitions; split_env; count_crunch;
    repeat split; try assumption; lia.
Qed.

Lemma adapter_blocked_forever E e :
  forall sched s s',
    coord s = CSendCancel e -> run E sched s = Some s' ->
    coord s' = CSendCancel e /\
    count is_handler_cancel (trace s') = count is_handler_cancel (trace s) /\
    count is_recv (trace s') = count is_recv (trace s).
Proof.
  induction sched as [|a sched IH]; intros s s' Hc Hrun; simpl in Hrun.
  - injection Hrun as <-; auto.
  - destruct (step E a s) as [s1|] eqn:Hs; [|discriminate].
    destruct (adapter_blocked_step _ _ _ _ _ Hc Hs) as (Hc1 & Hk1 & Hr1).
    destruct (IH _ _ Hc1 Hrun) as (Hc2 & Hk2 & Hr2).
    repeat split; congruence.
Qed.

(** C2 on the code.  When signalUpdate fails on the non-nil result of a
    continuing Tick, the adapter gets to [cancel <- err] and stays there
    whatever happens next: the channel is unbuffered and the only receive
    on it is the adapter's own select.  Handler.Cancel is not called and
    coordinate does not return. *)
Theorem signal_update_failure_blocks_adapter E s n r terr e :
  alive s -> coord s = CTicking n ->
  handler_Tick E n = (true, Some r, terr) ->
  signalUpdate E (n_update s) (Some r) = Some e ->
  exists s1,
    step E ACoordTickDone s = Some s1 /\ coord s1 = CSendCancel e /\
    forall sched s', run E sched s1 = Some s' ->
      coord s' = CSendCancel e /\ outcome_of s' = None /\
      count is_handler_cancel (trace s') = count is_handler_cancel (trace s).
Proof.
  intros Ha Hc Ht Hu.
  assert (Hs1 : step E ACoordTickDone s = Some (coordinate_tick_done E n s)).
  { apply step_fires; split; [exact Ha | constructor; exact Hc]. }
  assert (Hc1 : coord (coordinate_tick_done E n s) = CSendCancel e).
  { unfold coordinate_tick_done; rewrite Ht; cbn; rewrite Hu; reflexivity. }
  assert (Hk1 : count is_handler_cancel (trace (coordinate_tick_done E n s))
                = count is_handler_cancel (trace s)).
  { unfold coordinate_tick_done; rewrite Ht; cbn; rewrite Hu.
    count_crunch; lia. }
  eexists; split; [exact Hs1|]; split; [exact Hc1|].
  intros sched s' Hrun.
  destruct (adapter_blocked_forever E e sched _ _ Hc1 Hrun) as (Hc2 & Hk2 & _).
  repeat split; [exact Hc2 | unfold outcome_of; rewrite Hc2; reflexivity
                | congruence].
Qed.

Lemma signal_update_failure_blocks_adapter_witness :
  exists s1,
    step E_update_fails ACoordTickDone
      (state_of (run E_update_fails sched_first_tick_called init)) = Some s1
    /\ coord s1 = CSendCancel (OtherError "signal failed")
    /\ forall sched s', run E_update_fails sched s1 = Some s' ->
         coord s' = CSendCancel (OtherError "signal failed")
         /\ outcome_of s' = None
         /\ count is_handler_cancel (trace s') = 0%nat.
Proof.
  apply (signal_update_failure_blocks_adapter E_update_fails
           (state_of (run E_update_fails sched_first_tick_called init))
           0%nat "resA" None (OtherError "signal failed")).
  - intros p; vm_compute; discriminate.
  - reflexivity.
  - reflexivity.
  - reflexivity.
Defined.

(** *** C7: what becomes of the monitor when the adapter returns *)

Lemma monitor_blocked_step E a s s' r e c :
  coord s = CReturned r e -> mon s = MSend c -> step E a s = Some s' ->
  coord s' = CReturned r e /\ mon s' = MSend c /\
  stop_closed s' = stop_closed s.
Proof.
  intros Hc Hm Hstep.
  step_inv Hstep; try congruence; cbn; auto.
Qed.

Lemma monitor_blocked_forever E r e c :
  forall sched s s',
    coord s = CReturned r e -> mon s = MSend c -> run E sched s = Some s' ->
    coord s' = CReturned r e /\ mon s' = MSend c /\
    stop_closed s' = stop_closed s.
Proof.
  induction sched as [|a sched IH]; intros s s' Hc Hm Hrun; simpl in Hrun.
  - injection Hrun as <-; auto.
  - destruct (step E a s) as [s1|] eqn:Hs; [|discriminate].
    destruct (monitor_blocked_step _ _ _ _ _ _ _ Hc Hm Hs) as (Hc1 & Hm1 & Hs1).
    destruct (IH _ _ Hc1 Hm1 Hrun) as (Hc2 & Hm2 & Hs2).
    repeat split; congruence.
Qed.

(** What does hold on every exit path: coordinate returns once, and if the
    monitor was launched the stop channel is closed by then. *)
Lemma exit_paths_release_stop E :
  forall s, reachable E s ->
    count is_return (trace s) = (if has_returned (coord s) then 1 else 0)%nat /\
    (has_returned (coord s) = true -> mon s <> MNotStarted ->
     stop_closed s = true).
Proof.
  apply reachable_induction.
  - cbn; split; [reflexivity | discriminate].
  - intros a s s' Hreach [Hcnt Hstop] Hstep.
    assert (Hinit : coord s = CInit -> mon s = MNotStarted).
    { intros Hc. destruct (started_trace_invariant E s Hreach)
        as [(_ & Hm & _)|(Hc' & _)]; congruence. }
    step_inv Hstep; try (split; assumption);
      try (rewrite H in Hcnt, Hstop; cbn in Hcnt);
      open_transitions; split_calls E; count_snoc;
      try rewrite (Hinit H);
      try (split; [lia | solve [auto | discriminate | congruence]]).
    all: split; [destruct (has_returned (coord s)); lia|];
      intros Hret Hmon; apply Hstop; [exact Hret | congruence].
Qed.



(** *** C6: who writes on the cancel channel, and when *)

Lemma send_count_invariant E :
  forall s, reachable E s ->
    match mon s with
    | MSend _ =>
        count (is_send_by Monitor) (trace s) = 1%nat /\
        count is_recv (trace s) = 0%nat
    | MReturned =>
        (count is_recv (trace s) <= count (is_send_by Monitor) (trace s))%nat /\
        (count (is_send_by Monitor) (trace s) <= 1)%nat
    | _ =>
        count (is_send_by Monitor) (trace s) = 0%nat /\
        count is_recv (trace s) = 0%nat
    end.
Proof.
  apply reachable_induction.
  - cbn; auto.
  - intros a s s' Hreach IH Hstep.
    assert (Hinit : coord s = CInit -> mon s = MNotStarted).
    { intros Hc. destruct (started_trace_invariant E s Hreach)
        as [(_ & Hm & _)|(Hc' & _)]; congruence. }
    step_inv Hstep;
      try (exact IH);
      try (open_transitions; split_calls E; count_snoc;
           match goal with
           | Hm : mon s = _ |- _ => rewrite ?Hm in IH; rewrite ?Hm
           | Hc : coord s = CInit |- _ =>
               rewrite ?(Hinit Hc) in IH; rewrite ?(Hinit Hc)
           | _ => destruct (mon s)
           end; cbv beta iota in *; lia).
Qed.

Lemma adapter_send_invariant E :
  forall s, reachable E s ->
    (count (is_send_by Adapter) (trace s) = 0%nat /\
     forall e, coord s <> CSendCancel e)
    \/
    (exists e k r,
        coord s = CSendCancel e /\
        n_update s = S k /\ signalUpdate E k (Some r) = Some e /\
        forall v, In (EvSend Adapter v) (trace s) -> v = Some e).
Proof.
  apply reachable_invariant.
  - left; split; [reflexivity | cbn; discriminate].
  - intros a s s' IH Hstep.
    destruct IH as [[Hz Hc]|(e & k & r & Hc & Hk & Hu & Hin)].
    + step_inv Hstep;
        try (left; split; [exact Hz | exact Hc]);
        try (left; open_transitions; split_calls E; count_snoc;
             (split; [lia | cbn; first [exact Hc | intros ?; discriminate]])).
      (* ACoordTickDone *)
      unfold coordinate_tick_done.
      destruct (handler_Tick E n) as [[[|] [r|]] terr] eqn:Ht; cbn;
        try (left; unfold coordinate_return; count_snoc;
             (split; [lia | cbn; first [exact Hc | intros ?; discriminate]])).
      destruct (signalUpdate E (n_update s) (Some r)) as [e|] eqn:Hu; cbn.
      * right. exists e, (n_update s), r. repeat split; try assumption.
        intros v Hv. repeat (apply in_app_or in Hv; destruct Hv as [Hv|Hv]);
          try (apply (count_zero_not_in _ _ _ Hz) in Hv; discriminate);
          cbn in Hv; destruct Hv as [Hv|[]]; try discriminate.
        injection Hv as <-; reflexivity.
      * left. count_snoc. split; [lia | cbn; first [exact Hc | intros ?; discriminate]].
    + destruct (adapter_blocked_step _ _ _ _ _ Hc Hstep) as (Hc' & _ & _).
      right. exists e, k, r.
      assert (Hsame : n_update s' = n_update s /\
                      forall v, In (EvSend Adapter v) (trace s') ->
                                In (EvSend Adapter v) (trace s)).
      { step_inv Hstep; try congruence; try (cbn; auto; fail);
          open_transitions; split_calls E; cbn; (split; [reflexivity|]);
          intros v Hv;
          repeat (apply in_app_or in Hv; destruct Hv as [Hv|Hv]);
          try assumption; cbn in Hv; destruct Hv as [Hv|[]]; discriminate. }
      destruct Hsame as [Hn Hsub].
      repeat split; try assumption; [congruence | auto].
Qed.

Lemma stop_closed_invariant E :
  forall s, reachable E s ->
    stop_closed s = true -> finished (coord s) = true.
Proof.
  refine (reachable_invariant E
            (fun s => stop_closed s = true -> finished (coord s) = true) _ _).
  - cbn; discriminate.
  - intros a s s' IH Hstep.
    step_inv Hstep; try exact IH;
      open_transitions; split_calls E; cbn; try exact IH;
      intros Hs; try reflexivity;
      specialize (IH Hs);
      match goal with
      | Hc : coord s = _ |- _ => rewrite Hc in IH
      end; discriminate IH.
Qed.

Lemma finished_forever E :
  forall sched s s',
    finished (coord s) = true -> run E sched s = Some s' ->
    coord s' = coord s /\
    count is_recv (trace s') = count is_recv (trace s) /\
    n_tick s' = n_tick s.
Proof.
  induction sched as [|a sched IH]; intros s s' Hf Hrun; simpl in Hrun.
  - injection Hrun as <-; auto.
  - destruct (step E a s) as [s1|] eqn:Hs; [|discriminate].
    assert (H1 : coord s1 = coord s /\
                 count is_recv (trace s1) = count is_recv (trace s) /\
                 n_tick s1 = n_tick s).
    { step_inv Hs;
        try (match goal with
             | Hc : coord s = _ |- _ => rewrite Hc in Hf; discriminate Hf
             end);
        try (cbn; auto; fail);
        open_transitions; split_calls E; count_snoc;
        (split; [reflexivity|]); (split; [lia | reflexivity]). }
    destruct H1 as (Hc1 & Hr1 & Hn1).
    destruct (IH s1 s') as (Hc2 & Hr2 & Hn2); [congruence | exact Hrun |].
    repeat split; congruence.
Qed.

Lemma monitor_returned_forever E :
  forall sched s s',
    reachable E s -> mon s = MReturned -> run E sched s = Some s' ->
    mon s' = MReturned /\
    count (is_send_by Monitor) (trace s')
      = count (is_send_by Monitor) (trace s) /\
    count is_heartbeat (trace s') = count is_heartbeat (trace s).
Proof.
  induction sched as [|a sched IH]; intros s s' Hreach Hm Hrun;
    simpl in Hrun.
  - injection Hrun as <-; auto.
  - destruct (step E a s) as [s1|] eqn:Hs; [|discriminate].
    assert (Hreach1 : reachable E s1) by (eapply reachable_step; eassumption).
    assert (Hinit : coord s <> CInit).
    { destruct (started_trace_invariant E s Hreach)
        as [(_ & Hm' & _)|(Hc & _)]; congruence. }
    assert (H1 : mon s1 = MReturned /\
                 count (is_send_by Monitor) (trace s1)
                   = count (is_send_by Monitor) (trace s) /\
                 count is_heartbeat (trace s1) = count is_heartbeat (trace s)).
    { step_inv Hs; try congruence; try (cbn; auto; fail);
        open_transitions; split_calls E; count_snoc;
        (split; [assumption|]); split; lia. }
    destruct H1 as (Hm1 & Hs1 & Hb1).
    destruct (IH s1 s' Hreach1 Hm1 Hrun) as (Hm2 & Hs2 & Hb2).
    repeat split; congruence.
Qed.




(** *** C3: what Tick returns and what is forwarded *)

Lemma updates_of_app tr1 tr2 :
  updates_of (tr1 ++ tr2) = updates_of tr1 ++ updates_of tr2.
Proof.
  induction tr1 as [|ev tr1 IH]; [reflexivity|].
  destruct ev; cbn; rewrite IH; reflexivity.
Qed.

Lemma progress_results_S E n :
  progress_results E (S n) = progress_results E n ++ progress_of_tick E n.
Proof.
  unfold progress_results. rewrite seq_S, flat_map_app; cbn.
  rewrite app_nil_r; reflexivity.
Qed.

Lemma tick_invariant E :
  forall s, reachable E s ->
    count is_tick (trace s) = n_tick s /\
    (forall n, coord s = CTicking n -> n_tick s = S n) /\
    updates_of (trace s) = progress_results E (ticks_returned s).
Proof.
  apply reachable_invariant.
  - cbn; repeat split; discriminate.
  - intros a s s' (Hcnt & Hn & Hup) Hstep.
    unfold ticks_returned in *.
    step_inv Hstep; try (repeat split; assumption).
    + (* ACoordBegin *)
      rewrite H in Hup.
      unfold coordinate_begin; split_calls E; count_snoc;
        rewrite ?updates_of_app, ?app_nil_r; cbn; rewrite ?app_nil_r;
        (split; [lia|]); (split; [discriminate | exact Hup]).
    + (* ACoordTakeTick *)
      rewrite H in Hup.
      unfold coordinate_take_tick; count_snoc.
      rewrite updates_of_app; cbn; rewrite app_nil_r.
      split; [lia|]. split; [|exact Hup].
      intros n Hn'; injection Hn' as <-; reflexivity.
    + (* ACoordTickDone *)
      rewrite H in Hup. specialize (Hn n H). rewrite Hn in Hup; cbn in Hup.
      unfold coordinate_tick_done, coordinate_return.
      destruct (handler_Tick E n) as [[[|] [r|]] terr] eqn:Ht;
        [destruct (signalUpdate E (n_update s) (Some r))| | |];
        count_snoc; rewrite ?updates_of_app; cbn; rewrite ?app_nil_r;
        rewrite Hn, progress_results_S, <- Hup;
        unfold progress_of_tick; rewrite Ht; rewrite ?app_nil_r;
        (split; [lia|]); (split; [discriminate | reflexivity]).
    + (* ACoordTakeCancel *)
      rewrite H in Hup.
      unfold coordinate_take_cancel, coordinate_return, heartbeat_return.
      split_calls E; count_snoc; rewrite ?updates_of_app; cbn;
        rewrite ?app_nil_r;
        (split; [lia|]); (split; [discriminate | exact Hup]).
    + (* AMonBegin *)
      unfold heartbeat_begin; split_calls E; count_snoc;
        rewrite ?updates_of_app; cbn; rewrite ?app_nil_r;
        (split; [lia|]); (split; [exact Hn | exact Hup]).
    + (* AMonBeat *)
      unfold heartbeat_beat; split_calls E; count_snoc;
        rewrite ?updates_of_app; cbn; rewrite ?app_nil_r;
        (split; [lia|]); (split; [exact Hn | exact Hup]).
    + (* AMonTakeStop *)
      unfold heartbeat_return; count_snoc.
      rewrite updates_of_app; cbn; rewrite app_nil_r.
      (split; [lia|]); (split; [exact Hn | exact Hup]).
Qed.

Lemma existsb_count_zero p tr : count p tr = 0%nat -> existsb p tr = false.
Proof.
  unfold count; induction tr as [|ev tr IH]; cbn; [reflexivity|].
  destruct (p ev); cbn; [discriminate | exact IH].
Qed.



(** *** C8: the rate of Tick calls *)

Lemma tick_rate_invariant E :
  0 < tickMinInterval E ->
  forall s, reachable E s ->
    0 <= now s /\
    (coord s = CInit -> ticks s = None) /\
    match ticks s with
    | None => n_tick s = 0%nat
    | Some t =>
        period t = tickMinInterval E /\
        (Z.of_nat (n_tick s) + (if pending t then 1 else 0)) * period t
          <= next_fire t - period t /\
        next_fire t - period t <= now s
    end.
Proof.
  intros HT. apply reachable_invariant.
  - cbn -[Z.of_nat Z.mul]; repeat split; lia.
  - intros a s s' (Hnow & Hinit & Hticks) Hstep.
    step_inv Hstep;
      try (repeat split; assumption);
      try (split; [assumption|]; split; [intros Hc; congruence|];
           assumption).
    + (* ACoordBegin *)
      rewrite (Hinit H) in Hticks.
      unfold coordinate_begin, NewTicker.
      destruct (handler_Start E) as [u [e|]]; cbn -[Z.of_nat Z.mul];
        [rewrite (Hinit H); repeat split; try assumption; discriminate|].
      destruct (signalStart E u); cbn -[Z.of_nat Z.mul];
        [rewrite (Hinit H); repeat split; try assumption; discriminate|].
      destruct (tickMinInterval E <=? 0) eqn:Hle; cbn -[Z.of_nat Z.mul];
        [rewrite (Hinit H); repeat split; try assumption; discriminate|].
      rewrite Hticks; cbn -[Z.of_nat Z.mul].
      repeat split; try assumption; try discriminate; lia.
    + (* ACoordTakeTick *)
      unfold coordinate_take_tick; cbn -[Z.of_nat Z.mul].
      destruct (ticks s) as [t|]; [|discriminate]. cbn -[Z.of_nat Z.mul] in H0 |- *.
      rewrite H0 in Hticks.
      split; [assumption|]. split; [discriminate|].
      destruct Hticks as (Hp & Hb & Hn). repeat split; [assumption | | assumption].
      lia.
    + (* ACoordTickDone *)
      unfold coordinate_tick_done, coordinate_return.
      destruct (handler_Tick E n) as [[[|] [r|]] terr];
        [destruct (signalUpdate E (n_update s) (Some r))| | |]; cbn -[Z.of_nat Z.mul];
        (split; [assumption|]); (split; [discriminate|]);
        destruct (ticks s); cbn -[Z.of_nat Z.mul]; assumption.
    + (* ACoordTakeCancel *)
      unfold coordinate_take_cancel, coordinate_return, heartbeat_return.
      destruct (handler_Cancel E); cbn -[Z.of_nat Z.mul];
        (split; [assumption|]); (split; [discriminate|]);
        destruct (ticks s); cbn -[Z.of_nat Z.mul]; assumption.
    + (* AMonBegin *)
      unfold heartbeat_begin; destruct (NewTicker _ _); cbn -[Z.of_nat Z.mul];
        repeat split; assumption.
    + (* AMonBeat *)
      unfold heartbeat_beat; split_calls E; cbn -[Z.of_nat Z.mul]; repeat split; assumption.
    + (* AFireTicks *)
      cbn -[Z.of_nat Z.mul]. destruct (ticks s) as [t|]; [|discriminate]. cbn -[Z.of_nat Z.mul] in H |- *.
      apply andb_prop in H; destruct H as [_ Hdue]. apply Z.leb_le in Hdue.
      split; [assumption|]. split; [intros Hc; specialize (Hinit Hc); discriminate|].
      destruct Hticks as (Hp & Hb & Hn).
      repeat split; [assumption | | lia].
      destruct (pending t); lia.
    + (* AElapse *)
      cbn -[Z.of_nat Z.mul]. split; [lia|]. split; [assumption|].
      destruct (ticks s); [|assumption].
      destruct Hticks as (Hp & Hb & Hn). repeat split; try assumption; lia.
Qed.

Lemma ticker_invariant E :
  forall s, reachable E s ->
  forall t, ticks s = Some t ->
    0 < period t /\
    (running t = true -> now s <= next_fire t) /\
    (running t = false -> finished (coord s) = true).
Proof.
  refine (reachable_invariant E
            (fun s => forall t, ticks s = Some t -> _) _ _).
  - cbn; discriminate.
  - intros a s s' IH Hstep.
    step_inv Hstep; try exact IH.
    + (* ACoordBegin *)
      unfold coordinate_begin, NewTicker.
      destruct (handler_Start E) as [u [e|]]; cbn.
      { intros t Ht; destruct (IH t Ht) as (Hp & Hr & Hf).
        repeat split; auto. }
      destruct (signalStart E u); cbn.
      { intros t Ht; destruct (IH t Ht) as (Hp & Hr & Hf).
        repeat split; auto. }
      destruct (tickMinInterval E <=? 0) eqn:Hle; cbn.
      { intros t Ht; destruct (IH t Ht) as (Hp & Hr & Hf).
        repeat split; auto. }
      apply Z.leb_gt in Hle.
      intros t Ht; injection Ht as <-; cbn.
      repeat split; [lia | lia | discriminate].
    + (* ACoordTakeTick *)
      unfold coordinate_take_tick; cbn.
      destruct (ticks s) as [t0|]; [|discriminate]; cbn.
      intros t Ht; injection Ht as <-; cbn.
      destruct (IH t0 eq_refl) as (Hp & Hr & Hf).
      repeat split; [assumption | assumption |].
      intros Hrun; specialize (Hf Hrun); rewrite H in Hf; discriminate.
    + (* ACoordTickDone *)
      unfold coordinate_tick_done, coordinate_return.
      destruct (handler_Tick E n) as [[[|] [r|]] terr];
        [destruct (signalUpdate E (n_update s) (Some r))| | |]; cbn;
        intros t Ht;
        try (destruct (IH t Ht) as (Hp & Hr & Hf);
             repeat split; [assumption | assumption |];
             intros Hrun; specialize (Hf Hrun); rewrite H in Hf;
             discriminate);
        destruct (ticks s) as [t0|]; [|discriminate| |discriminate];
        cbn in Ht; injection Ht as <-; cbn;
        destruct (IH t0 eq_refl) as (Hp & Hr & Hf);
        repeat split; try assumption; try reflexivity; discriminate.
    + (* ACoordTakeCancel *)
      unfold coordinate_take_cancel, coordinate_return, heartbeat_return.
      destruct (handler_Cancel E); cbn; intros t Ht;
        (destruct (ticks s) as [t0|]; [|discriminate]);
        cbn in Ht; injection Ht as <-; cbn;
        destruct (IH t0 eq_refl) as (Hp & Hr & Hf);
        repeat split; try assumption; try reflexivity; discriminate.
    + (* AMonBegin *)
      unfold heartbeat_begin; destruct (NewTicker _ _); cbn; exact IH.
    + (* AMonBeat *)
      unfold heartbeat_beat; split_calls E; cbn; exact IH.
    + (* AFireTicks *)
      cbn. destruct (ticks s) as [t0|]; [|discriminate]; cbn in H |- *.
      apply andb_prop in H; destruct H as [Hrun Hdue].
      apply Z.leb_le in Hdue.
      intros t Ht; injection Ht as <-; cbn.
      destruct (IH t0 eq_refl) as (Hp & Hr & Hf).
      split; [assumption|]. split; [|exact Hf].
      intros _; specialize (Hr Hrun); lia.
    + (* AElapse *)
      cbn. intros t Ht. destruct (IH t Ht) as (Hp & Hr & Hf).
      rewrite Ht in H0; cbn in H0.
      repeat split; [assumption | | assumption].
      intros Hrun; rewrite Hrun in H0; cbn in H0.
      apply Z.leb_le in H0; exact H0.
Qed.

Lemma tick_credit_step E a s s' :
  0 < tickMinInterval E -> reachable E s -> step E a s = Some s' ->
  tick_credit E s' <= tick_credit E s /\ now s <= now s'.
Proof.
  intros HT Hr Hstep.
  destruct (tick_rate_invariant E HT s Hr) as (Hnow & Hinit & Hticks).
  unfold tick_credit.
  step_inv Hstep; try (split; lia).
  - (* ACoordBegin *)
    rewrite (Hinit H) in Hticks |- *.
    unfold coordinate_begin, NewTicker.
    destruct (handler_Start E) as [u [e|]]; cbn -[Z.of_nat Z.mul];
      [rewrite (Hinit H); lia|].
    destruct (signalStart E u); cbn -[Z.of_nat Z.mul];
      [rewrite (Hinit H); lia|].
    destruct (tickMinInterval E <=? 0); cbn -[Z.of_nat Z.mul];
      [rewrite (Hinit H); lia|].
    rewrite Hticks; lia.
  - (* ACoordTakeTick *)
    unfold coordinate_take_tick; cbn -[Z.of_nat Z.mul].
    destruct (ticks s) as [t|]; [|discriminate].
    cbn -[Z.of_nat Z.mul] in H0 |- *. rewrite H0. lia.
  - (* ACoordTickDone *)
    unfold coordinate_tick_done, coordinate_return.
    destruct (handler_Tick E n) as [[[|] [r|]] terr];
      [destruct (signalUpdate E (n_update s) (Some r))| | |];
      cbn -[Z.of_nat Z.mul]; destruct (ticks s); cbn -[Z.of_nat Z.mul]; lia.
  - (* ACoordTakeCancel *)
    unfold coordinate_take_cancel, coordinate_return, heartbeat_return.
    destruct (handler_Cancel E); cbn -[Z.of_nat Z.mul];
      destruct (ticks s); cbn -[Z.of_nat Z.mul]; lia.
  - unfold heartbeat_begin; destruct (NewTicker _ _);
      cbn -[Z.of_nat Z.mul]; lia.
  - unfold heartbeat_beat; split_calls E; cbn -[Z.of_nat Z.mul]; lia.
  - unfold heartbeat_return; cbn -[Z.of_nat Z.mul]; lia.
  - (* AFireTicks *)
    cbn -[Z.of_nat Z.mul].
    destruct (ticks s) as [t|]; [|discriminate]. cbn -[Z.of_nat Z.mul].
    destruct Hticks as (Hp & _ & _). destruct (pending t); lia.
  - (* AFireHeartbeats *)
    cbn -[Z.of_nat Z.mul]. destruct (ticks s); lia.
  - (* AElapse *)
    cbn -[Z.of_nat Z.mul]. destruct (ticks s); lia.
Qed.

Lemma tick_credit_run E :
  0 < tickMinInterval E ->
  forall sched s s',
    reachable E s -> run E sched s = Some s' ->
    tick_credit E s' <= tick_credit E s /\ now s <= now s'.
Proof.
  intros HT.
  induction sched as [|a sched IH]; intros s s' Hr Hrun; simpl in Hrun.
  - injection Hrun as <-; lia.
  - destruct (step E a s) as [s1|] eqn:Hs; [|discriminate].
    destruct (tick_credit_step E a s s1 HT Hr Hs) as [Hc1 Hn1].
    destruct (IH s1 s' (reachable_step _ _ _ _ Hr Hs) Hrun) as [Hc2 Hn2].
    lia.
Qed.

Lemma tick_times_app tr1 tr2 :
  tick_times (tr1 ++ tr2) = tick_times tr1 ++ tick_times tr2.
Proof.
  induction tr1 as [|ev tr1 IH]; [reflexivity|].
  destruct ev; cbn; rewrite IH; reflexivity.
Qed.

Lemma spaced_snoc gap times t :
  spaced gap times -> Forall (fun L => L + gap <= t) times ->
  spaced gap (times ++ [t]).
Proof.
  induction times as [|t1 [|t2 times] IH]; intros Hs Hall.
  - exact I.
  - cbn. inversion Hall; subst. split; [assumption | exact I].
  - destruct Hs as [H12 Hs]. inversion Hall; subst.
    split; [exact H12 | apply IH; assumption].
Qed.

(** A transition that adds no Tick call, leaves time and the timer as they
    are (it may stop the timer) and does not make the adapter busy keeps
    [gap_inv]. *)
Lemma gap_inv_frame E s s' :
  tick_times (trace s') = tick_times (trace s) ->
  option_map (fun t => (period t, next_fire t, pending t)) (ticks s')
  = option_map (fun t => (period t, next_fire t, pending t)) (ticks s) ->
  now s' = now s ->
  (busy s' = true -> busy s = true) ->
  gap_inv E s -> gap_inv E s'.
Proof.
  unfold gap_inv; intros Ht Hk Hn Hb [Hs Hm].
  rewrite Ht, Hn. split; [exact Hs|].
  destruct (ticks s) as [t|], (ticks s') as [t'|]; try discriminate Hk;
    [|exact Hm].
  cbn in Hk; injection Hk as -> -> ->.
  destruct Hm as [Hbusy Hall]. split; [|exact Hall].
  intros Hb'; apply Hbusy; apply Hb; exact Hb'.
Qed.

Lemma gap_step E a s s' :
  0 < tickMinInterval E -> reachable E s -> gap_inv E s ->
  step E a s = Some s' ->
  (forall d, a = AElapse d -> busy s = true -> d = 0) ->
  gap_inv E s'.
Proof.
  intros HT Hr Hinv Hstep Hprompt.
  destruct (tick_rate_invariant E HT s Hr) as (Hnow & Hinit & Hticks).
  pose proof (ticker_invariant E s Hr) as Htk.
  step_inv Hstep.
  - (* ACoordBegin *)
    unfold gap_inv in Hinv. rewrite (Hinit H) in Hinv.
    destruct Hinv as [Hs Hnil].
    unfold gap_inv, coordinate_begin, NewTicker.
    destruct (handler_Start E) as [u [e|]]; cbn -[Z.mul];
      [rewrite (Hinit H), !tick_times_app, Hnil; cbn -[Z.mul]; auto|].
    destruct (signalStart E u); cbn -[Z.mul];
      [rewrite (Hinit H), !tick_times_app, Hnil; cbn -[Z.mul]; auto|].
    destruct (tickMinInterval E <=? 0); cbn -[Z.mul];
      [rewrite (Hinit H), !tick_times_app, Hnil; cbn -[Z.mul]; auto|].
    rewrite !tick_times_app, Hnil; cbn -[Z.mul].
    split; [exact I|]. split; [discriminate | constructor].
  - (* ACoordTakeTick *)
    unfold gap_inv in *. unfold coordinate_take_tick; cbn -[Z.mul].
    destruct (ticks s) as [t|] eqn:Et; [|discriminate].
    cbn -[Z.mul] in H0 |- *.
    destruct Hinv as [Hs [Hbusy Hall]]. destruct Hticks as (Hp & _ & _).
    destruct (Htk t eq_refl) as (Hpos & _ & _).
    assert (Hb : busy s = true) by (unfold busy; rewrite H, Et; exact H0).
    specialize (Hbusy Hb H0). rewrite H0 in Hall.
    rewrite tick_times_app; cbn -[Z.mul].
    split; [|split; [discriminate|]].
    + apply spaced_snoc; [exact Hs|].
      eapply Forall_impl; [|exact Hall]. cbn -[Z.mul]; intros L HL. lia.
    + apply Forall_app; split.
      * eapply Forall_impl; [|exact Hall]. cbn -[Z.mul]; intros L HL. lia.
      * constructor; [lia | constructor].
  - (* ACoordTickDone *)
    apply (gap_inv_frame E s); try assumption;
      unfold coordinate_tick_done, coordinate_return;
      destruct (handler_Tick E n) as [[[|] [r|]] terr];
      try destruct (signalUpdate E (n_update s) (Some r));
      cbn -[Z.mul]; rewrite ?tick_times_app; cbn -[Z.mul]; rewrite ?app_nil_r;
      try reflexivity;
      try (destruct (ticks s); reflexivity);
      intros _; unfold busy; rewrite H; reflexivity.
  - (* ACoordTakeCancel *)
    apply (gap_inv_frame E s); try assumption;
      unfold coordinate_take_cancel, coordinate_return, heartbeat_return;
      destruct (handler_Cancel E);
      cbn -[Z.mul]; rewrite ?tick_times_app; cbn -[Z.mul]; rewrite ?app_nil_r;
      try reflexivity;
      try (destruct (ticks s); reflexivity);
      discriminate.
  - (* AMonBegin *)
    apply (gap_inv_frame E s); try assumption;
      unfold heartbeat_begin; split_calls E; cbn -[Z.mul];
      rewrite ?tick_times_app; cbn -[Z.mul]; rewrite ?app_nil_r; auto.
  - (* AMonBeat *)
    apply (gap_inv_frame E s); try assumption;
      unfold heartbeat_beat; split_calls E; cbn -[Z.mul];
      rewrite ?tick_times_app; cbn -[Z.mul]; rewrite ?app_nil_r; auto.
  - (* AMonTakeStop *)
    apply (gap_inv_frame E s); try assumption;
      unfold heartbeat_return; cbn -[Z.mul];
      rewrite ?tick_times_app; cbn -[Z.mul]; rewrite ?app_nil_r; auto.
  - (* AFireTicks *)
    unfold gap_inv in *. cbn -[Z.mul].
    destruct (ticks s) as [t|] eqn:Et; [|discriminate]. cbn -[Z.mul] in H |- *.
    apply andb_prop in H; destruct H as [Hrun Hdue]. apply Z.leb_le in Hdue.
    destruct Hinv as [Hs [Hbusy Hall]].
    destruct (Htk t eq_refl) as (Hpos & Hle & _). specialize (Hle Hrun).
    split; [exact Hs|]. split; [intros _ _; lia|].
    eapply Forall_impl; [|exact Hall]. cbn -[Z.mul]; intros L HL.
    destruct (pending t); lia.
  - (* AFireHeartbeats *)
    apply (gap_inv_frame E s); try assumption; cbn -[Z.mul]; auto.
  - (* AElapse *)
    unfold gap_inv in *. cbn -[Z.mul].
    destruct Hinv as [Hs Hm]. split; [exact Hs|].
    destruct (ticks s) as [t|] eqn:Et; [|exact Hm].
    destruct Hm as [Hbusy Hall]. split; [|exact Hall].
    intros Hb Hp.
    assert (Hb' : busy s = true).
    { revert Hb; unfold busy; cbn -[Z.mul]; rewrite Et; auto. }
    rewrite (Hprompt d eq_refl Hb'). specialize (Hbusy Hb' Hp). lia.
Qed.

Lemma gap_run E :
  0 < tickMinInterval E ->
  forall sched s s',
    reachable E s -> gap_inv E s ->
    run E sched s = Some s' -> prompt E sched s = true ->
    gap_inv E s'.
Proof.
  intros HT.
  induction sched as [|a sched IH]; intros s s' Hr Hinv Hrun Hp;
    simpl in Hrun, Hp.
  - injection Hrun as <-; exact Hinv.
  - destruct (step E a s) as [s1|] eqn:Hs; [|discriminate].
    apply andb_prop in Hp; destruct Hp as [Ha Hp].
    apply (IH s1 s'); try assumption.
    + eapply reachable_step; eassumption.
    + apply (gap_step E a s s1 HT Hr Hinv Hs).
      intros d -> Hb. rewrite Hb in Ha; cbn in Ha.
      apply Z.eqb_eq; exact Ha.
Qed.



(** The spacing of consecutive calls does need an adapter that is not kept
    waiting: after a Tick that took longer than T, the tick that waited in
    the timer's buffer is taken at once and the next one follows less than
    T later.  Here T = 50 and Tick is called at 50, 140 and 150: three
    calls in 150 units of time, the last two 10 apart. *)
Example slow_tick_shortens_the_next_gap :
  run E_quiet sched_slow_first_tick init
    = Some (state_of (run E_quiet sched_slow_first_tick init))
  /\ tick_times (trace (state_of (run E_quiet sched_slow_first_tick init)))
     = [50; 140; 150]
  /\ ~ spaced (tickMinInterval E_quiet)
         (tick_times
            (trace (state_of (run E_quiet sched_slow_first_tick init)))).
Proof.
  assert (Ht : tick_times
                 (trace (state_of (run E_quiet sched_slow_first_tick init)))
               = [50; 140; 150]) by (vm_compute; reflexivity).
  split; [vm_compute; reflexivity|]. split; [exact Ht|].
  rewrite Ht; cbn. lia.
Qed.

End CoordinatedFacts.

(* ------------------------------------------------------------------ *)
(** ** Further properties of the coordinated activity adapter *)

Module CoordinatedMore.
Import Coordinated CoordinatedFacts.

(** *** The task-gone test of line 106 *)

Lemma prefix_append (a b : string) :
  String.prefix a b = true <-> exists post, b = (a ++ post)%string.
Proof.
  revert b; induction a as [|c a IH]; intros b; cbn.
  - split; [intros _; exists b; reflexivity | destruct b; reflexivity].
  - destruct b as [|c' b]; cbn.
    + split; [discriminate | intros [post H]; discriminate].
    + destruct (Ascii.ascii_dec c c') as [->|Hne].
      * rewrite IH. split; intros [post H]; exists post; congruence.
      * split; [discriminate | intros [post H]; congruence].
Qed.

Lemma Contains_substring (s sub : string) :
  Contains s sub = true <->
  exists pre post, s = (pre ++ sub ++ post)%string.
Proof.
  induction s as [|c s IH]; cbn [Contains].
  - rewrite orb_false_r, prefix_append. split.
    + intros [post H]. exists EmptyString, post; exact H.
    + intros [[|c pre] [post H]]; [exists post; exact H | discriminate].
  - rewrite orb_true_iff, prefix_append, IH. split.
    + intros [[post H]|(pre & post & H)].
      * exists EmptyString, post; exact H.
      * exists (String c pre), post; cbn; congruence.
    + intros [[|c' pre] [post H]].
      * left; exists post; exact H.
      * right; exists pre, post. cbn in H; congruence.
Qed.

(** X1.  [heartbeat] takes a failed heartbeat call for the task being gone
    exactly when the error is an awserr.Error whose code is
    ErrorTypeUnknownResourceFault and whose message has "Unknown activity"
    somewhere inside it; any other error, whatever its text, is not. *)
Theorem task_gone_iff (E : env) (err : error) :
  is_task_gone E err = true <->
  exists pre post,
    err = AwsError (ErrorTypeUnknownResourceFault E)
                   (pre ++ "Unknown activity" ++ post)%string.
Proof.
  destruct err as [|code message|msg]; cbn [is_task_gone].
  - split; [discriminate | intros (pre & post & H); discriminate].
  - rewrite andb_true_iff, String.eqb_eq.
    change TaskGone with "Unknown activity".
    rewrite Contains_substring. split.
    + intros [-> (pre & post & ->)]. exists pre, post; reflexivity.
    + intros (pre & post & H); injection H as -> ->.
      split; [reflexivity | exists pre, post; reflexivity].
  - split; [discriminate | intros (pre & post & H); discriminate].
Qed.

(** *** What the adapter and the monitor do not look at *)

(** X2.  The error of a Tick that returns continue=true is dropped: it is
    neither returned nor logged, and the whole session runs as if that
    error had been nil. *)
Theorem continuing_tick_error_is_ignored (E : env) (sched : list action)
  (s : state) :
  run (without_continuing_errors E) sched s = run E sched s.
Proof.
  revert s; induction sched as [|a sched IH]; intros s; [reflexivity|].
  assert (Hstep : step (without_continuing_errors E) a s = step E a s).
  { unfold step. destruct (mon s), a; try reflexivity;
      destruct (coord s); try reflexivity;
      unfold coordinate_tick_done; cbn;
      destruct (handler_Tick E n) as [[[|] res] err]; reflexivity. }
  simpl. rewrite Hstep. destruct (step E a s); [apply IH | reflexivity].
Qed.

(** X3.  When a heartbeat call fails, the status that comes with the error
    is not looked at: whatever it is (a nil CancelRequested included), the
    session runs the same. *)
Theorem failed_heartbeat_status_is_ignored
  (st : RecordActivityTaskHeartbeatOutput) (E : env) (sched : list action)
  (s : state) :
  run (with_status_on_failure st E) sched s = run E sched s.
Proof.
  revert s; induction sched as [|a sched IH]; intros s; [reflexivity|].
  assert (Hstep : step (with_status_on_failure st E) a s = step E a s).
  { unfold step. destruct (mon s), a; try reflexivity;
      destruct (has_tick (heartbeats s)); try reflexivity;
      unfold heartbeat_beat; cbn;
      destruct (RecordActivityTaskHeartbeat E (n_beat s)) as [status [e|]];
      reflexivity. }
  simpl. rewrite Hstep. destruct (step E a s); [apply IH | reflexivity].
Qed.

(** *** The monitor after it has detected a cancellation *)

Lemma monitor_sending_step E a s s' c :
  reachable E s -> mon s = MSend c -> step E a s = Some s' ->
  (mon s' = MSend c \/ mon s' = MReturned) /\
  count is_heartbeat (trace s') = count is_heartbeat (trace s) /\
  count (is_send_by Monitor) (trace s')
    = count (is_send_by Monitor) (trace s).
Proof.
  intros Hr Hm Hstep.
  assert (Hinit : coord s <> CInit).
  { destruct (started_trace_invariant E s Hr)
      as [(_ & Hm' & _)|(Hc & _)]; congruence. }
  step_inv Hstep; try congruence; try (cbn; auto; fail);
    open_transitions; split_calls E; count_snoc;
    (split; [auto|]); split; lia.
Qed.

(** X4.  Once the monitor has got to its send on the cancel channel it
    makes no further heartbeat call and starts no second send, whatever
    happens next: it stays in that send until the adapter takes the
    signal, and then it has returned. *)
Theorem no_heartbeat_after_cancellation_detected E c :
  forall sched s s',
    reachable E s -> mon s = MSend c -> run E sched s = Some s' ->
    (mon s' = MSend c \/ mon s' = MReturned) /\
    count is_heartbeat (trace s') = count is_heartbeat (trace s) /\
    count (is_send_by Monitor) (trace s')
      = count (is_send_by Monitor) (trace s).
Proof.
  induction sched as [|a sched IH]; intros s s' Hr Hm Hrun; simpl in Hrun.
  - injection Hrun as <-; auto.
  - destruct (step E a s) as [s1|] eqn:Hs; [|discriminate].
    assert (Hr1 : reachable E s1) by (eapply reachable_step; eassumption).
    destruct (monitor_sending_step E a s s1 c Hr Hm Hs)
      as ([Hm1|Hm1] & Hb1 & Hs1).
    + destruct (IH s1 s' Hr1 Hm1 Hrun) as (Hm2 & Hb2 & Hs2).
      repeat split; [exact Hm2 | congruence | congruence].
    + destruct (monitor_returned_forever E sched s1 s' Hr1 Hm1 Hrun)
        as (Hm2 & Hs2 & Hb2).
      repeat split; [right; exact Hm2 | congruence | congruence].
Qed.

Lemma no_heartbeat_after_cancellation_detected_witness :
  count is_heartbeat
    (trace (state_of (run E_cancel_and_finish
                        (sched_send_then_tick
                         ++ [ACoordTickDone; AElapse 10; AFireHeartbeats])
                        init))) = 1%nat.
Proof.
  destruct (no_heartbeat_after_cancellation_detected E_cancel_and_finish
              (Some ActivityTaskCanceledError)
              [AElapse 20; AFireTicks; ACoordTakeTick; ACoordTickDone;
               AElapse 10; AFireHeartbeats]
              (state_of (run E_cancel_and_finish
                           (sched_first_beat_due ++ [AMonBeat]) init))
              (state_of (run E_cancel_and_finish
                        (sched_send_then_tick
                         ++ [ACoordTickDone; AElapse 10; AFireHeartbeats])
                        init)))
    as (_ & Hb & _).
  - exists (sched_first_beat_due ++ [AMonBeat]); vm_compute; reflexivity.
  - vm_compute; reflexivity.
  - vm_compute; reflexivity.
  - rewrite Hb; vm_compute; reflexivity.
Defined.

(** *** The rate of heartbeat calls *)

Lemma heartbeat_rate_invariant E :
  0 < heartbeatInterval E ->
  forall s, reachable E s ->
    0 <= now s /\
    count is_heartbeat (trace s) = n_beat s /\
    (mon s = MNotStarted \/ mon s = MSpawned -> heartbeats s = None) /\
    match heartbeats s with
    | None => n_beat s = 0%nat
    | Some t =>
        period t = heartbeatInterval E /\
        (Z.of_nat (n_beat s) + (if pending t then 1 else 0)) * period t
          <= next_fire t - period t /\
        next_fire t - period t <= now s
    end.
Proof.
  intros HH. apply reachable_induction.
  - cbn; repeat split; lia.
  - intros a s s' Hr (Hnow & Hcnt & Hnone & Hb) Hstep.
    assert (Hinit : coord s = CInit -> mon s = MNotStarted).
    { intros Hc. destruct (started_trace_invariant E s Hr)
        as [(_ & Hm & _)|(Hc' & _)]; congruence. }
    step_inv Hstep.
    + (* ACoordBegin *)
      specialize (Hnone (or_introl (Hinit H))).
      rewrite Hnone in Hb.
      unfold coordinate_begin; split_calls E; count_snoc; rewrite Hnone;
        repeat split; auto; lia.
    + unfold coordinate_take_tick; count_snoc.
      repeat split; auto; lia.
    + unfold coordinate_tick_done, coordinate_return; split_calls E;
        count_snoc; repeat split; auto; lia.
    + (* ACoordTakeCancel *)
      unfold coordinate_take_cancel, coordinate_return, heartbeat_return.
      split_calls E; count_snoc;
        (split; [assumption|]); (split; [lia|]);
        (split; [intros [?|?]; discriminate|]);
        destruct (heartbeats s); cbn -[Z.of_nat Z.mul]; assumption.
    + (* AMonBegin *)
      specialize (Hnone (or_intror H)). rewrite Hnone in Hb.
      unfold heartbeat_begin, NewTicker.
      destruct (heartbeatInterval E <=? 0) eqn:Hle;
        [apply Z.leb_le in Hle; lia|].
      cbn -[Z.of_nat Z.mul]. rewrite Hb.
      repeat split; try assumption; try lia.
      intros [?|?]; discriminate.
    + (* AMonBeat *)
      destruct (heartbeats s) as [t|] eqn:Et; [|discriminate].
      cbn in H0. rewrite H0 in Hb. destruct Hb as (Hp & Hb & Hn).
      unfold heartbeat_beat; rewrite Et.
      destruct (RecordActivityTaskHeartbeat E (n_beat s)) as [st [e|]];
        [destruct (is_task_gone E e)
        |destruct (CancelRequested st) as [[|]|]];
        cbn -[Z.of_nat Z.mul]; rewrite ?count_snoc; cbn -[Z.of_nat Z.mul];
        (split; [assumption|]); (split; [lia|]);
        (split; [intros [?|?]; congruence|]);
        repeat split; try assumption; lia.
    + (* AMonTakeStop *)
      unfold heartbeat_return; count_snoc.
      (split; [assumption|]); (split; [lia|]);
        (split; [intros [?|?]; discriminate|]).
      destruct (heartbeats s); cbn -[Z.of_nat Z.mul]; assumption.
    + (* AFireTicks *)
      cbn -[Z.of_nat Z.mul]. repeat split; assumption.
    + (* AFireHeartbeats *)
      cbn -[Z.of_nat Z.mul].
      destruct (heartbeats s) as [t|] eqn:Et; [|discriminate].
      cbn -[Z.of_nat Z.mul] in H |- *.
      apply andb_prop in H; destruct H as [_ Hdue]. apply Z.leb_le in Hdue.
      destruct Hb as (Hp & Hb & Hn).
      (split; [assumption|]); (split; [assumption|]).
      split.
      { intros Hm; specialize (Hnone Hm); discriminate. }
      repeat split; [assumption | | lia].
      destruct (pending t); lia.
    + (* AElapse *)
      cbn -[Z.of_nat Z.mul].
      (split; [lia|]); (split; [assumption|]); (split; [assumption|]).
      destruct (heartbeats s); [|assumption].
      destruct Hb as (Hp & Hb & Hn). repeat split; try assumption; lia.
Qed.

(** X5.  With a positive heartbeat interval H, every heartbeat call takes
    one tick of the heartbeat ticker: no call is made without a waiting
    tick, and the number of RecordActivityTaskHeartbeat calls made by any
    time t of a session is at most t / H. *)
Theorem heartbeat_rate_is_bounded E s :
  0 < heartbeatInterval E -> reachable E s ->
  Z.of_nat (count is_heartbeat (trace s)) * heartbeatInterval E <= now s
  /\ (has_tick (heartbeats s) = false -> step E AMonBeat s = None).
Proof.
  intros HH Hr.
  destruct (heartbeat_rate_invariant E HH s Hr) as (Hnow & Hcnt & _ & Hb).
  split.
  - rewrite Hcnt. destruct (heartbeats s) as [t|].
    + destruct Hb as (Hp & Hb & Hn). rewrite <- Hp.
      destruct (pending t); lia.
    + rewrite Hb; cbn; lia.
  - intros Hno. unfold step. rewrite Hno.
    destruct (mon s); reflexivity.
Qed.

Lemma heartbeat_rate_is_bounded_witness :
  Z.of_nat (count is_heartbeat
              (trace (state_of (run E_quiet sched_three_beats init))))
    * heartbeatInterval E_quiet
    <= now (state_of (run E_quiet sched_three_beats init))
  /\ (has_tick (heartbeats (state_of (run E_quiet sched_three_beats init)))
      = false ->
      step E_quiet AMonBeat (state_of (run E_quiet sched_three_beats init))
      = None).
Proof.
  apply (heartbeat_rate_is_bounded E_quiet
           (state_of (run E_quiet sched_three_beats init))).
  - vm_compute; reflexivity.
  - exists sched_three_beats; vm_compute; reflexivity.
Defined.

(** *** Intervals that time.NewTicker refuses *)

Lemma zero_tick_interval_invariant E :
  tickMinInterval E <= 0 ->
  forall s, reachable E s ->
    ticks s = None /\ count is_tick (trace s) = 0%nat /\
    count is_return (trace s) = (if has_returned (coord s) then 1 else 0)%nat /\
    (coord s = CInit \/
     (exists e, setup_error E = Some e /\ coord s = CReturned None (Some e)) \/
     (setup_error E = None /\ coord s = CPanicked NonPositiveInterval /\
      stop_closed s = true)).
Proof.
  intros HT. apply reachable_invariant.
  - cbn; auto.
  - intros a s s' (Hticks & Hcnt & Hret & Hc) Hstep.
    step_inv Hstep;
      try (rewrite Hticks in *; discriminate);
      try (destruct Hc as [Hc|[(e & _ & Hc)|(_ & Hc & _)]]; congruence);
      try (cbn; auto; fail).
    + (* ACoordBegin *)
      rewrite H in Hret; cbn in Hret.
      unfold coordinate_begin, NewTicker, setup_error.
      destruct (handler_Start E) as [u [e|]]; cbn.
      { count_snoc. rewrite Hcnt, Hret. repeat split; eauto 6. }
      destruct (signalStart E u) as [e|] eqn:Hsig; cbn.
      { count_snoc. rewrite Hcnt, Hret. repeat split; eauto 6. }
      destruct (tickMinInterval E <=? 0) eqn:Hle;
        [|apply Z.leb_gt in Hle; lia].
      count_snoc. rewrite Hcnt, Hret. repeat split; auto 6.
    + unfold heartbeat_begin; split_calls E; count_snoc;
        rewrite ?Hcnt, ?Hret; repeat split; auto; try lia;
        destruct (has_returned (coord s)); lia.
    + unfold heartbeat_beat; split_calls E; count_snoc;
        rewrite ?Hcnt, ?Hret; repeat split; auto; try lia;
        destruct (has_returned (coord s)); lia.
    + unfold heartbeat_return; count_snoc;
        rewrite ?Hcnt, ?Hret; repeat split; auto; try lia;
        destruct (has_returned (coord s)); lia.
Qed.

(** X6.  With a minimum tick interval that is not positive, a session
    whose Start and signalStart succeed panics in time.NewTicker, after
    Handler.Start has run, the start was signalled and the monitor was
    launched; the deferred close of the stop channel runs, Handler.Tick is
    never called and coordinate never returns a result. *)
Theorem non_positive_tick_interval_panics E :
  tickMinInterval E <= 0 -> setup_error E = None ->
  (exists s1,
      step E ACoordBegin init = Some s1 /\
      coord s1 = CPanicked NonPositiveInterval /\
      mon s1 = MSpawned /\ stop_closed s1 = true /\
      trace s1 = [EvStart; EvSignalStart (fst (handler_Start E));
                  EvGoHeartbeat; EvCloseStop;
                  EvPanic Adapter NonPositiveInterval])
  /\ forall s, reachable E s ->
       count is_tick (trace s) = 0%nat /\
       count is_return (trace s) = 0%nat /\
       outcome_of s = None.
Proof.
  intros HT Hsetup. split.
  - exists (coordinate_begin E init). split; [reflexivity|].
    unfold setup_error in Hsetup. unfold coordinate_begin, NewTicker.
    destruct (handler_Start E) as [u [e|]]; cbn in Hsetup |- *;
      [discriminate|].
    rewrite Hsetup.
    destruct (tickMinInterval E <=? 0) eqn:Hle;
      [|apply Z.leb_gt in Hle; lia].
    cbn; auto.
  - intros s Hr.
    destruct (zero_tick_interval_invariant E HT s Hr)
      as (_ & Hcnt & Hret & [Hc|[(e & He & _)|(_ & Hc & _)]]);
      [| congruence |];
      rewrite Hc in Hret; cbn in Hret;
      (repeat split; [exact Hcnt | exact Hret |]);
      unfold outcome_of; rewrite Hc; reflexivity.
Qed.

Lemma non_positive_tick_interval_panics_witness :
  exists s1,
    step E_zero_tick_interval ACoordBegin init = Some s1 /\
    coord s1 = CPanicked NonPositiveInterval /\
    mon s1 = MSpawned /\ stop_closed s1 = true /\
    trace s1 = [EvStart;
                EvSignalStart (fst (handler_Start E_zero_tick_interval));
                EvGoHeartbeat; EvCloseStop;
                EvPanic Adapter NonPositiveInterval].
Proof.
  apply (proj1 (non_positive_tick_interval_panics E_zero_tick_interval
                  ltac:(vm_compute; discriminate) eq_refl)).
Defined.

(** X7.  With a heartbeat interval that is not positive, the monitor
    panics in time.NewTicker as soon as it runs.  The panic is in a
    goroutine of its own, so it ends the process: nothing of the session
    happens afterwards, and no heartbeat call is ever made. *)
Theorem non_positive_heartbeat_interval_panics E :
  heartbeatInterval E <= 0 ->
  (forall s, mon s = MSpawned ->
     exists s1, step E AMonBegin s = Some s1 /\
                mon s1 = MPanicked NonPositiveInterval /\
                coord s1 = coord s /\
                forall sched s2, run E sched s1 = Some s2 -> s2 = s1)
  /\ forall s, reachable E s -> count is_heartbeat (trace s) = 0%nat.
Proof.
  intros HH. split.
  - intros s Hm. exists (heartbeat_begin E s).
    assert (Hb : heartbeat_begin E s
                 = set_mon (MPanicked NonPositiveInterval)
                     (emit (EvPanic Monitor NonPositiveInterval) s)).
    { unfold heartbeat_begin, NewTicker.
      destruct (heartbeatInterval E <=? 0) eqn:Hle;
        [reflexivity | apply Z.leb_gt in Hle; lia]. }
    split; [unfold step; rewrite Hm; reflexivity|].
    rewrite Hb. split; [reflexivity|]. split; [reflexivity|].
    intros [|a sched] s2 Hrun; simpl in Hrun.
    + injection Hrun as <-; reflexivity.
    + discriminate.
  - intros s Hr.
    apply (reachable_invariant E
             (fun s => count is_heartbeat (trace s) = 0%nat /\
                       heartbeats s = None)); [cbn; auto | | exact Hr].
    clear s Hr. intros a s s' [Hcnt Hnone] Hstep.
    step_inv Hstep;
      try (rewrite Hnone in *; discriminate);
      try (cbn; auto; fail);
      open_transitions; split_calls E; count_snoc;
      rewrite ?Hcnt, ?Hnone; try (split; reflexivity).
    (* AMonBegin: NewTicker cannot succeed *)
    exfalso.
    match goal with
    | Hn : NewTicker _ (heartbeatInterval E) = Some _ |- _ =>
        unfold NewTicker in Hn;
        destruct (heartbeatInterval E <=? 0) eqn:Hle;
        [discriminate Hn | apply Z.leb_gt in Hle; lia]
    end.
Qed.

Lemma non_positive_heartbeat_interval_panics_witness :
  exists s1,
    step E_zero_heartbeat_interval AMonBegin
      (state_of (run E_zero_heartbeat_interval [ACoordBegin] init)) = Some s1
    /\ mon s1 = MPanicked NonPositiveInterval
    /\ coord s1
       = coord (state_of (run E_zero_heartbeat_interval [ACoordBegin] init))
    /\ forall sched s2,
         run E_zero_heartbeat_interval sched s1 = Some s2 -> s2 = s1.
Proof.
  apply (proj1 (non_positive_heartbeat_interval_panics
                  E_zero_heartbeat_interval
                  ltac:(vm_compute; discriminate))).
  reflexivity.
Defined.

(** *** Leaving: the stop channel and the tickers *)

Lemma release_invariant E :
  forall s, reachable E s ->
    (coord s = CInit -> ticks s = None) /\
    (has_returned (coord s) = true -> ticker_running (ticks s) = false) /\
    (mon s = MReturned -> ticker_running (heartbeats s) = false) /\
    (mon s = MNotStarted \/ mon s = MSpawned -> heartbeats s = None) /\
    (mon s = MSelect -> ticker_running (heartbeats s) = true).
Proof.
  apply reachable_induction.
  - cbn. repeat split; try discriminate; auto.
  - intros a s s' Hr (Hi & Ht & Hh & Hn & Hs) Hstep.
    assert (Hinit : coord s = CInit -> mon s = MNotStarted).
    { intros Hc. destruct (started_trace_invariant E s Hr)
        as [(_ & Hm & _)|(Hc' & _)]; congruence. }
    step_inv Hstep.
    + pose proof (Hi H) as Hnone. pose proof (Hinit H) as Hm.
      unfold coordinate_begin; split_calls E; cbn;
        rewrite ?Hnone, ?Hm in *;
        repeat split; auto; try discriminate;
        try (intros _; apply Hn; auto).
    + unfold coordinate_take_tick; cbn. repeat split; auto; discriminate.
    + unfold coordinate_tick_done, coordinate_return; split_calls E; cbn;
        repeat split; auto; try discriminate;
        intros _; destruct (ticks s); reflexivity.
    + unfold coordinate_take_cancel, coordinate_return, heartbeat_return;
        split_calls E; cbn;
        (repeat split;
         [ discriminate
         | intros _; destruct (ticks s); reflexivity
         | intros _; destruct (heartbeats s); reflexivity
         | intros [?|?]; discriminate
         | discriminate ]).
    + unfold heartbeat_begin; split_calls E; cbn;
        repeat split; auto; try discriminate;
        try (intros [?|?]; discriminate).
      intros _. unfold NewTicker in Heqo.
      destruct (heartbeatInterval E <=? 0); [discriminate|].
      injection Heqo as <-; reflexivity.
    + assert (Hrun : ticker_running (heartbeats s) = true) by auto.
      unfold heartbeat_beat; split_calls E; cbn;
        repeat split; auto; try discriminate;
        try (intros [?|?]; congruence);
        try (intros _; destruct (heartbeats s); [exact Hrun | discriminate]);
        try congruence.
    + unfold heartbeat_return; cbn.
      repeat split; auto; try discriminate;
        try (intros [?|?]; discriminate).
      intros _; destruct (heartbeats s); reflexivity.
    + cbn. repeat split; auto.
      * intros Hc; rewrite (Hi Hc); reflexivity.
      * intros Hc; specialize (Ht Hc).
        destruct (ticks s); [exact Ht | reflexivity].
    + cbn. repeat split; auto.
      * intros Hm; specialize (Hh Hm).
        destruct (heartbeats s); [exact Hh | reflexivity].
      * intros Hm; rewrite (Hn Hm) in H; discriminate.
      * intros Hm; specialize (Hs Hm).
        destruct (heartbeats s); [exact Hs | discriminate].
    + cbn. repeat split; auto.
Qed.

(** X8.  On every return of coordinate after the monitor was launched, the
    tick ticker has been stopped and the stop channel closed (the two
    defers); and when heartbeat has returned its own ticker has been
    stopped.  coordinate returns at most once. *)
Theorem defers_release_tickers_and_stop E s :
  reachable E s ->
  (has_returned (coord s) = true ->
   (count is_return (trace s) = 1%nat) /\
   ticker_running (ticks s) = false /\
   (mon s <> MNotStarted -> stop_closed s = true))
  /\ (mon s = MReturned -> ticker_running (heartbeats s) = false).
Proof.
  intros Hr.
  destruct (release_invariant E s Hr) as (_ & Ht & Hh & _ & _).
  destruct (exit_paths_release_stop E s Hr) as (Hcnt & Hstop).
  split; [|exact Hh].
  intros Hret. rewrite Hret in Hcnt. auto.
Qed.

Lemma defers_release_tickers_and_stop_witness :
  ticker_running
    (ticks (state_of (run E_three_ticks
                        (sched_third_tick_called ++ [ACoordTickDone]) init)))
  = false
  /\ stop_closed (state_of (run E_three_ticks
                        (sched_third_tick_called ++ [ACoordTickDone]) init))
     = true.
Proof.
  destruct (defers_release_tickers_and_stop E_three_ticks
              (state_of (run E_three_ticks
                        (sched_third_tick_called ++ [ACoordTickDone]) init)))
    as [Hret _].
  - exists (sched_third_tick_called ++ [ACoordTickDone]).
    vm_compute; reflexivity.
  - destruct (Hret eq_refl) as (_ & Ht & Hs).
    split; [exact Ht | apply Hs; vm_compute; discriminate].
Defined.

(** X9.  Once [coordinate] has returned, a monitor that has not detected a
    cancellation can always leave through the stop channel: from where it
    is (just launched, or in its select) it reaches its return without
    another heartbeat call and without sending anything, and its ticker
    is stopped. *)
Theorem monitor_can_leave_after_return E s :
  0 < heartbeatInterval E -> reachable E s ->
  has_returned (coord s) = true ->
  mon s = MSpawned \/ mon s = MSelect ->
  exists sched s',
    run E sched s = Some s' /\
    mon s' = MReturned /\ coord s' = coord s /\
    ticker_running (heartbeats s') = false /\
    count is_heartbeat (trace s') = count is_heartbeat (trace s) /\
    count (is_send_by Monitor) (trace s')
      = count (is_send_by Monitor) (trace s).
Proof.
  intros HH Hr Hret Hm.
  assert (Hstop : stop_closed s = true).
  { apply (exit_paths_release_stop E s Hr); [exact Hret|].
    destruct Hm as [Hm|Hm]; rewrite Hm; discriminate. }
  assert (Hleave : forall s0, mon s0 = MSelect -> stop_closed s0 = true ->
            step E AMonTakeStop s0 = Some (heartbeat_return s0)).
  { intros s0 Hm0 Hs0. unfold step; rewrite Hm0, Hs0; reflexivity. }
  destruct Hm as [Hm|Hm].
  - exists [AMonBegin; AMonTakeStop].
    assert (Hb : heartbeat_begin E s
                 = set_mon MSelect
                     (set_heartbeats
                        (Some {| period := heartbeatInterval E;
                                 next_fire := now s + heartbeatInterval E;
                                 pending := false; running := true |}) s)).
    { unfold heartbeat_begin, NewTicker.
      destruct (heartbeatInterval E <=? 0) eqn:Hle;
        [apply Z.leb_le in Hle; lia | reflexivity]. }
    eexists. split.
    + simpl. unfold step at 1; rewrite Hm. rewrite Hb.
      rewrite Hleave; [reflexivity | reflexivity | exact Hstop].
    + unfold heartbeat_return; count_snoc. repeat split; lia.
  - exists [AMonTakeStop]. eexists. split.
    + simpl. rewrite (Hleave s Hm Hstop); reflexivity.
    + unfold heartbeat_return; count_snoc.
      repeat split; try lia. destruct (heartbeats s); reflexivity.
Qed.

Lemma monitor_can_leave_after_return_witness :
  exists sched s',
    run E_cancel_and_finish sched
      (state_of (run E_cancel_and_finish sched_finish_at_first_tick init))
    = Some s' /\
    mon s' = MReturned /\
    coord s'
    = coord (state_of (run E_cancel_and_finish sched_finish_at_first_tick init))
    /\ ticker_running (heartbeats s') = false /\
    count is_heartbeat (trace s')
    = count is_heartbeat
        (trace (state_of (run E_cancel_and_finish
                            sched_finish_at_first_tick init))) /\
    count (is_send_by Monitor) (trace s')
    = count (is_send_by Monitor)
        (trace (state_of (run E_cancel_and_finish
                            sched_finish_at_first_tick init))).
Proof.
  apply (monitor_can_leave_after_return E_cancel_and_finish
           (state_of (run E_cancel_and_finish sched_finish_at_first_tick init))).
  - vm_compute; reflexivity.
  - exists sched_finish_at_first_tick; vm_compute; reflexivity.
  - reflexivity.
  - left; reflexivity.
Defined.

(** *** What happens at most once *)

Lemma once_invariant E :
  forall s, reachable E s ->
    count is_start (trace s)
      = (match coord s with CInit => 0 | _ => 1 end)%nat /\
    count is_go_heartbeat (trace s)
      = (match mon s with MNotStarted => 0 | _ => 1 end)%nat /\
    (count is_go_heartbeat (trace s) <= count is_signal_start (trace s))%nat /\
    (count is_signal_start (trace s) <= count is_start (trace s))%nat /\
    (count is_handler_cancel (trace s) <= count is_go_heartbeat (trace s))%nat.
Proof.
  apply reachable_induction.
  - unfold count; cbn; repeat split; lia.
  - intros a s s' Hr (Hst & Hgo & Hgs & Hss & Hc) Hstep.
    assert (Hinit : coord s = CInit -> mon s = MNotStarted).
    { intros Hc0. destruct (started_trace_invariant E s Hr)
        as [(_ & Hm & _)|(Hc' & _)]; congruence. }
    assert (Hzero : forall c, mon s = MSend c ->
                      count is_handler_cancel (trace s) = 0%nat).
    { intros c Hm. destruct (cancel_invariant E s Hr) as [_ [[_ Hz]|Hret]];
        [exact Hz|].
      destruct Hret as (c' & k & pre & _ & _ & _ & _ & _ & _ & _ & Hm').
      congruence. }
    step_inv Hstep;
      try (repeat split; assumption).
    + rewrite H in Hst. rewrite (Hinit H) in Hgo.
      unfold coordinate_begin; split_calls E; count_snoc;
        rewrite ?(Hinit H); repeat split; lia.
    + rewrite H in Hst.
      unfold coordinate_take_tick; count_snoc;
        destruct (mon s); cbv beta iota in *; repeat split; lia.
    + rewrite H in Hst.
      unfold coordinate_tick_done, coordinate_return; split_calls E;
        count_snoc; destruct (mon s); cbv beta iota in *;
        repeat split; lia.
    + rewrite H in Hst. rewrite H0 in Hgo. pose proof (Hzero _ H0) as Hz.
      unfold coordinate_take_cancel, coordinate_return, heartbeat_return;
        split_calls E; count_snoc; repeat split; lia.
    + rewrite H in Hgo.
      unfold heartbeat_begin; split_calls E; count_snoc;
        rewrite ?H; destruct (coord s); cbv beta iota in *;
        repeat split; lia.
    + rewrite H in Hgo.
      unfold heartbeat_beat; split_calls E; count_snoc;
        rewrite ?H; destruct (coord s); cbv beta iota in *;
        repeat split; lia.
    + rewrite H in Hgo.
      unfold heartbeat_return; count_snoc;
        rewrite ?H; destruct (coord s); cbv beta iota in *;
        repeat split; lia.
Qed.



End CoordinatedMore.
